(** * SolveSquare: the root solver of [main.c], embedded and verified

    The program reads three coefficients and reports the roots of
    [a*x^2 + b*x + c = 0].  The interesting code is [solve_square] and
    [solve_linear]; [main] dispatches on the integer they return.

    The C code computes on [double].  The solver is written once, over an
    interface for the arithmetic it uses, and then read in two ways:

    - [binary64]: Rocq's primitive floats, that is IEEE 754 binary64 with
      round-to-nearest-even, which is what a C [double] is on the usual
      targets (no extended precision, no fused multiply-add);
    - [xreal]: exact real arithmetic with one error value, the reading the
      specification has in mind when it speaks of real coefficients.

    Output parameters [double *x1, *x2] are modelled by the list of stores
    the function performs on the pointers it is given. *)

From Stdlib Require Import String.
From Stdlib Require Import ZArith List Bool Lia.
From Stdlib Require Import Floats.
From Stdlib Require Import Reals Lra.
Import ListNotations.

Set Implicit Arguments.

(* ===================================================================== *)
(** ** The arithmetic that the solver uses *)

(** What [main.c] needs from [double]: [fabs], unary minus, the four
    operations, [sqrt], the comparison [<] (C's [x > y] is [y < x]), the
    conversion of an integer literal, and [DBL_EPSILON] of [<float.h>]. *)
Class DoubleArith (T : Type) := {
  fabs : T -> T;
  neg : T -> T;
  add : T -> T -> T;
  sub : T -> T -> T;
  mul : T -> T -> T;
  div : T -> T -> T;
  sqrt : T -> T;
  lt : T -> T -> bool;
  lit : Z -> T;
  DBL_EPSILON : T
}.

Definition gt {T} `{DoubleArith T} (x y : T) : bool := lt y x.

(* ===================================================================== *)
(** ** Memory effects: stores through pointers *)

(** A pointer to a [double] cell. *)
Definition ptr := nat.

(** The stores a call performs, in program order.  Neither function ever
    reads through its pointer arguments, so a call is described by its
    return value and this list. *)
Definition effect (T : Type) := list (ptr * T).

Definition Action (T A : Type) : Type := A * effect T.

Definition ret {T A} (v : A) : Action T A := (v, []).

Definition bind {T A B} (m : Action T A) (k : A -> Action T B) : Action T B :=
  let '(v, w1) := m in
  let '(r, w2) := k v in
  (r, w1 ++ w2).

(** [*p = v;] *)
Definition store {T} (p : ptr) (v : T) : Action T unit := (tt, [(p, v)]).

Notation "m ;; k" := (bind m (fun _ => k))
  (at level 61, right associativity).

(** Memory, and the memory after the stores of a call. *)
Definition mem (T : Type) := ptr -> T.

Definition upd {T} (m : mem T) (p : ptr) (v : T) : mem T :=
  fun q => if Nat.eqb q p then v else m q.

Fixpoint commit {T} (w : effect T) (m : mem T) : mem T :=
  match w with
  | [] => m
  | (p, v) :: w' => commit w' (upd m p v)
  end.

Definition written {T} (w : effect T) : list ptr := map fst w.

(* ===================================================================== *)
(** ** The solver *)

(** [const int INFINITE_ROOTS = -1;] *)
Definition INFINITE_ROOTS : Z := -1.

(** What [main] prints: one constructor per [printf] of its dispatch. *)
Inductive RootResult (T : Type) :=
| InfiniteRoots
| NoRoots
| OneRoot (x : T)
| TwoRoots (x1 x2 : T)
| Strange.

Arguments InfiniteRoots {T}.
Arguments NoRoots {T}.
Arguments OneRoot {T} x.
Arguments TwoRoots {T} x1 x2.
Arguments Strange {T}.

Section Solver.
Context {T : Type} `{DoubleArith T}.

(** [int solve_linear(double b, double c, double* x)] *)
Definition solve_linear (b c : T) (x : ptr) : Action T Z :=
  if lt (fabs b) DBL_EPSILON then
    if lt (fabs c) DBL_EPSILON then ret INFINITE_ROOTS
    else ret 0%Z
  else
    store x (div (neg c) b) ;;
    ret 1%Z.

(** The discriminant, [b * b - 4 * a * c] (C parses [4 * a * c] as
    [(4 * a) * c]). *)
Definition discriminant (a b c : T) : T :=
  sub (mul b b) (mul (mul (lit 4) a) c).

(** [int solve_square(double a, double b, double c, double* x1, double* x2)] *)
Definition solve_square (a b c : T) (x1 x2 : ptr) : Action T Z :=
  if lt (fabs a) DBL_EPSILON then solve_linear b c x1
  else
    let d := discriminant a b c in
    if lt d (lit 0) && gt (fabs d) DBL_EPSILON then ret 0%Z
    else if lt (fabs d) DBL_EPSILON then
      store x1 (div (neg b) (mul (lit 2) a)) ;;
      ret 1%Z
    else
      let d := sqrt d in
      store x1 (div (sub (neg b) d) (mul (lit 2) a)) ;;
      store x2 (div (add (neg b) d) (mul (lit 2) a)) ;;
      ret 2%Z.

(** The two locals of [main] whose addresses are passed. *)
Definition addr_x1 : ptr := 0.
Definition addr_x2 : ptr := 1.

(** [main] after the three inputs were read: [double x1 = 0, x2 = 0;],
    the call, and the chain of tests on [roots_num]. *)
Definition report (roots_num : Z) (x1 x2 : T) : RootResult T :=
  if (roots_num =? INFINITE_ROOTS)%Z then InfiniteRoots
  else if (roots_num =? 0)%Z then NoRoots
  else if (roots_num =? 1)%Z then OneRoot x1
  else if (roots_num =? 2)%Z then TwoRoots x1 x2
  else Strange.

(** A call of [solve_square] on the cells [p1] and [p2] of the memory
    [m], read back the way [main] reads its locals. *)
Definition call (a b c : T) (p1 p2 : ptr) (m : mem T) : RootResult T :=
  let '(roots_num, w) := solve_square a b c p1 p2 in
  let m' := commit w m in
  report roots_num (m' p1) (m' p2).

Definition solve (a b c : T) : RootResult T :=
  call a b c addr_x1 addr_x2 (fun _ => lit 0).
End Solver.

(* ===================================================================== *)
(** ** Reading 1: IEEE 754 binary64 *)

(** Conversion of an integer to [double]: round to nearest. *)
Definition float_of_Z (z : Z) : float :=
  SF2Prim (binary_normalize prec emax z 0 false).

#[export] Instance binary64 : DoubleArith float := {
  fabs := PrimFloat.abs;
  neg := PrimFloat.opp;
  add := PrimFloat.add;
  sub := PrimFloat.sub;
  mul := PrimFloat.mul;
  div := PrimFloat.div;
  sqrt := PrimFloat.sqrt;
  lt := PrimFloat.ltb;
  lit := float_of_Z;
  DBL_EPSILON := 0x1p-52%float
}.


(* ===================================================================== *)
(** ** Reading 2: exact real arithmetic *)

(** A real number, or the error value that C's [sqrt] of a negative number
    and a division by zero stand for.  Nothing is rounded and nothing
    overflows. *)
Inductive xreal :=
| XNaN
| XR (r : R).

Definition xlift1 (f : R -> R) (x : xreal) : xreal :=
  match x with
  | XR r => XR (f r)
  | XNaN => XNaN
  end.

Definition xlift2 (f : R -> R -> R) (x y : xreal) : xreal :=
  match x, y with
  | XR r, XR s => XR (f r s)
  | _, _ => XNaN
  end.

Definition xdiv (x y : xreal) : xreal :=
  match x, y with
  | XR r, XR s => if Req_dec_T s 0 then XNaN else XR (r / s)
  | _, _ => XNaN
  end.

Definition xsqrt (x : xreal) : xreal :=
  match x with
  | XR r => if Rlt_dec r 0 then XNaN else XR (R_sqrt.sqrt r)
  | XNaN => XNaN
  end.

Definition xlt (x y : xreal) : bool :=
  match x, y with
  | XR r, XR s => if Rlt_dec r s then true else false
  | _, _ => false
  end.

(** [DBL_EPSILON] is 2^-52. *)
Definition eps : R := / 4503599627370496.

#[export] Instance exact : DoubleArith xreal := {
  fabs := xlift1 Rabs;
  neg := xlift1 Ropp;
  add := xlift2 Rplus;
  sub := xlift2 Rminus;
  mul := xlift2 Rmult;
  div := xdiv;
  sqrt := xsqrt;
  lt := xlt;
  lit := fun z => XR (IZR z);
  DBL_EPSILON := XR eps
}.

(* ===================================================================== *)
(** ** What a call returns and stores, for any arithmetic *)

Section Outcome.
Context {T : Type} `{DoubleArith T}.

(** The four ways [solve_linear] and [solve_square] end. *)
Inductive outcome (x1 x2 : ptr) : Action T Z -> Prop :=
| out_infinite : outcome x1 x2 (INFINITE_ROOTS, [])
| out_none : outcome x1 x2 (0%Z, [])
| out_one v : outcome x1 x2 (1%Z, [(x1, v)])
| out_two v1 v2 : outcome x1 x2 (2%Z, [(x1, v1); (x2, v2)]).

Lemma solve_linear_outcome b c x x2 : outcome x x2 (solve_linear b c x).
Proof.
  unfold solve_linear.
  destruct (lt (fabs b) DBL_EPSILON).
  - destruct (lt (fabs c) DBL_EPSILON); constructor.
  - apply out_one.
Qed.

Lemma solve_square_outcome a b c x1 x2 :
  outcome x1 x2 (solve_square a b c x1 x2).
Proof.
  unfold solve_square.
  destruct (lt (fabs a) DBL_EPSILON).
  - apply solve_linear_outcome.
  - destruct (lt (discriminant a b c) (lit 0) &&
              gt (fabs (discriminant a b c)) DBL_EPSILON).
    + apply out_none.
    + destruct (lt (fabs (discriminant a b c)) DBL_EPSILON).
      * apply out_one.
      * apply out_two.
Qed.

Lemma upd_same (m : mem T) p v : upd m p v p = v.
Proof. unfold upd. now rewrite Nat.eqb_refl. Qed.

Lemma upd_other (m : mem T) p q v : q <> p -> upd m p v q = m q.
Proof.
  intros Hq. unfold upd.
  destruct (Nat.eqb_spec q p); [contradiction | reflexivity].
Qed.

(** A cell that no store names keeps its content. *)
Lemma commit_frame (w : effect T) : forall (m : mem T) q,
  ~ In q (written w) -> commit w m q = m q.
Proof.
  induction w as [| [p v] w IH]; intros m q Hq; simpl in *.
  - reflexivity.
  - rewrite IH by tauto.
    apply upd_other. intros ->. tauto.
Qed.
End Outcome.

(* ===================================================================== *)
(** ** Comparisons of binary64 numbers *)

Section Compare.
Open Scope float_scope.

Lemma SFcompare_antisym x y :
  SFcompare y x = option_map CompOpp (SFcompare x y).
Proof.
  destruct x as [sx | sx | | sx mx ex], y as [sy | sy | | sy my ey];
    simpl; try reflexivity;
    try (destruct sx; reflexivity); try (destruct sy; reflexivity);
    try (destruct sx, sy; reflexivity).
  destruct sx, sy; try reflexivity;
    rewrite (Z.compare_antisym ex ey);
    destruct (ex ?= ey)%Z; simpl; try reflexivity;
    rewrite (Pos.compare_cont_antisym mx my Eq); simpl;
    try reflexivity; now rewrite CompOpp_involutive.
Qed.

(** [x <= y] excludes [y < x]. *)
Lemma leb_not_ltb (x y : float) : (x <=? y) = true -> (y <? x) = false.
Proof.
  rewrite leb_spec, ltb_spec. unfold SFleb, SFltb.
  rewrite (SFcompare_antisym (Prim2SF x) (Prim2SF y)).
  destruct (SFcompare (Prim2SF x) (Prim2SF y)) as [[]|]; simpl; congruence.
Qed.

(** Two numbers, neither of them NaN, are ordered one way or the other. *)
Lemma not_ltb_leb (x y : float) :
  is_nan x = false -> is_nan y = false ->
  (x <? y) = false -> (y <=? x) = true.
Proof.
  unfold is_nan. rewrite !eqb_spec, leb_spec, ltb_spec.
  unfold SFeqb, SFleb, SFltb.
  rewrite (SFcompare_antisym (Prim2SF x) (Prim2SF y)).
  destruct (Prim2SF x) as [sx | sx | | sx mx ex],
           (Prim2SF y) as [sy | sy | | sy my ey]; simpl; try discriminate;
    intros _ _;
    try (destruct sx; simpl; congruence);
    try (destruct sy; simpl; congruence);
    try (destruct sx, sy; simpl; congruence).
  destruct sx, sy; simpl; try congruence;
    destruct (ex ?= ey)%Z; simpl; try congruence;
    destruct (Pos.compare_cont Eq mx my); simpl; congruence.
Qed.
End Compare.

(* ===================================================================== *)
(** ** Return codes, stores and the dispatch of [main] *)

Section Generic.
Context {T : Type} `{DoubleArith T}.

Lemma call_outcome a b c p1 p2 (m : mem T) :
  p1 <> p2 ->
  call a b c p1 p2 m = InfiniteRoots \/
  call a b c p1 p2 m = NoRoots \/
  (exists v, solve_square a b c p1 p2 = (1%Z, [(p1, v)]) /\
             call a b c p1 p2 m = OneRoot v) \/
  (exists v1 v2, solve_square a b c p1 p2 = (2%Z, [(p1, v1); (p2, v2)]) /\
                 call a b c p1 p2 m = TwoRoots v1 v2).
Proof.
  intros Hp. unfold call.
  destruct (solve_square_outcome a b c p1 p2) as [ | | v | v1 v2]; simpl.
  - now left.
  - now right; left.
  - right; right; left. exists v. now rewrite upd_same.
  - right; right; right. exists v1, v2.
    rewrite upd_same, upd_other, upd_same by assumption. now split.
Qed.

(** C8. Determinism and purity: what a call reports is a function of the
    three coefficients alone.  It depends neither on the content of the
    memory before the call nor on which two distinct cells receive the
    roots; the return code and the values stored do not depend on the
    memory at all. *)
Theorem solve_square_pure (a b c : T) (p1 p2 q1 q2 : ptr) (m m' : mem T) :
  p1 <> p2 -> q1 <> q2 ->
  fst (solve_square a b c p1 p2) = fst (solve_square a b c q1 q2) /\
  map snd (snd (solve_square a b c p1 p2)) =
    map snd (snd (solve_square a b c q1 q2)) /\
  call a b c p1 p2 m = call a b c q1 q2 m' /\
  call a b c p1 p2 m = solve a b c.
Proof.
  intros Hp Hq.
  assert (Hframe : forall r1 r2 (m0 : mem T), r1 <> r2 ->
    fst (solve_square a b c r1 r2) = fst (solve_square a b c 0 1) /\
    map snd (snd (solve_square a b c r1 r2)) =
      map snd (snd (solve_square a b c 0 1)) /\
    call a b c r1 r2 m0 = solve a b c).
  { intros r1 r2 m0 Hr. unfold solve, call, addr_x1, addr_x2.
    unfold solve_square, solve_linear.
    destruct (lt (fabs a) DBL_EPSILON).
    - destruct (lt (fabs b) DBL_EPSILON).
      + destruct (lt (fabs c) DBL_EPSILON); simpl; auto.
      + simpl. rewrite !upd_same. auto.
    - destruct (lt (discriminant a b c) (lit 0) &&
                gt (fabs (discriminant a b c)) DBL_EPSILON); simpl; auto.
      destruct (lt (fabs (discriminant a b c)) DBL_EPSILON); simpl.
      + rewrite !upd_same. auto.
      + rewrite !upd_same, (upd_other _ (q := r1)) by assumption.
        rewrite upd_same. auto. }
  destruct (Hframe p1 p2 m Hp) as (Hn & Hv & Hc).
  destruct (Hframe q1 q2 m' Hq) as (Hn' & Hv' & Hc').
  repeat split; congruence.
Qed.

(** C9. Frame property of the output parameters: a call that returns 0
    or [INFINITE_ROOTS] stores nothing, so every cell keeps its content;
    a call that returns 1 stores to [*x1] only, so [*x2] (a different
    cell) keeps its content; [*x2] is stored to only when 2 is
    returned.  No other cell is ever touched. *)
Theorem solve_square_frame (a b c : T) (x1 x2 : ptr) (m : mem T) :
  x1 <> x2 ->
  let n := fst (solve_square a b c x1 x2) in
  let w := snd (solve_square a b c x1 x2) in
  (n = 0%Z \/ n = INFINITE_ROOTS ->
     written w = [] /\ commit w m x1 = m x1 /\ commit w m x2 = m x2) /\
  (n = 1%Z -> written w = [x1] /\ commit w m x2 = m x2) /\
  (In x2 (written w) -> n = 2%Z) /\
  (n = 2%Z -> written w = [x1; x2]) /\
  (forall q, q <> x1 -> q <> x2 -> commit w m q = m q).
Proof.
  intros Hx n w. subst n w.
  destruct (solve_square_outcome a b c x1 x2) as [ | | v | v1 v2];
    unfold INFINITE_ROOTS; simpl; repeat apply conj; intros;
    repeat apply conj; try reflexivity; try discriminate; try tauto;
    try (match goal with E : _ \/ _ |- _ => destruct E; discriminate end).
  - apply upd_other. congruence.
  - now apply upd_other.
  - now rewrite !upd_other.
Qed.

(** C10. The integer that [solve_square] returns is one of -1
    ([INFINITE_ROOTS]), 0, 1 and 2, so the last branch of the dispatch in
    [main], the one that prints "Something strange happened", is never
    taken. *)
Theorem solve_square_return_code (a b c : T) (x1 x2 : ptr) :
  In (fst (solve_square a b c x1 x2)) [INFINITE_ROOTS; 0%Z; 1%Z; 2%Z] /\
  solve a b c <> Strange.
Proof.
  split.
  - destruct (solve_square_outcome a b c x1 x2); simpl; tauto.
  - unfold solve.
    destruct (call_outcome a b c (fun _ => lit 0) (p1 := addr_x1) (p2 := addr_x2))
      as [E | [E | [(v & _ & E) | (v1 & v2 & _ & E)]]];
      try (rewrite E; discriminate).
    unfold addr_x1, addr_x2. discriminate.
Qed.
End Generic.

(** Witnesses of C8 and C9 on binary64 numbers. *)
Lemma solve_square_pure_witness :
  2 <> 3 /\ 5 <> 4 /\
  call 1%float 0%float (-1)%float 2 3 (fun _ => 7%float) =
  call 1%float 0%float (-1)%float 5 4 (fun _ => 9%float).
Proof.
  assert (H23 : 2 <> 3) by discriminate.
  assert (H54 : 5 <> 4) by discriminate.
  split; [exact H23 | split; [exact H54 |]].
  exact (proj1 (proj2 (proj2
    (solve_square_pure 1%float 0%float (-1)%float
       (fun _ => 7%float) (fun _ => 9%float) H23 H54)))).
Defined.

Lemma solve_square_frame_witness :
  addr_x1 <> addr_x2 /\
  commit (snd (solve_square 0%float 2%float (-4)%float addr_x1 addr_x2))
         (fun _ => 7%float) addr_x2 = 7%float.
Proof.
  assert (Hx : addr_x1 <> addr_x2) by discriminate.
  split; [assumption |].
  exact (proj2 (proj1 (proj2
    (solve_square_frame 0%float 2%float (-4)%float (fun _ => 7%float) Hx))
    eq_refl)).
Defined.

(* ===================================================================== *)
(** ** The solver on binary64 numbers *)

Section Binary64.
Open Scope float_scope.

Lemma lit_0 : lit 0 = 0.
Proof. reflexivity. Qed.

Lemma lit_2 : lit 2 = 2.
Proof. reflexivity. Qed.

Lemma lit_4 : lit 4 = 4.
Proof. reflexivity. Qed.

(** C4. The six example invocations of the specification. *)
Theorem solve_examples :
  solve 1 0 (-1) = TwoRoots (-1) 1 /\
  solve 1 (-2) 1 = OneRoot 1 /\
  solve 1 0 1 = NoRoots /\
  solve 0 2 (-4) = OneRoot 2 /\
  solve 0 0 5 = NoRoots /\
  solve 0 0 0 = InfiniteRoots.
Proof. repeat split; vm_compute; reflexivity. Qed.

(** C1. The quadratic branch.  When [|a| >= DBL_EPSILON], with
    [d = b*b - 4*a*c]: the call returns 0 and stores nothing (no roots)
    when [d < 0] and [|d| > DBL_EPSILON]; it returns 1 with [-b/(2*a)] in
    [*x1] when [|d| < DBL_EPSILON]; in every other case it returns 2 with
    [(-b - sqrt d)/(2*a)] in [*x1] and [(-b + sqrt d)/(2*a)] in [*x2].
    In particular a negative [d] of magnitude below [DBL_EPSILON] gives
    one root. *)
Theorem solve_square_quadratic (a b c : float) (x1 x2 : ptr) :
  (DBL_EPSILON <=? abs a) = true ->
  let d := b * b - 4 * a * c in
  ((d <? 0) = true -> (DBL_EPSILON <? abs d) = true ->
     solve_square a b c x1 x2 = (0%Z, []) /\
     solve a b c = NoRoots) /\
  ((abs d <? DBL_EPSILON) = true ->
     solve_square a b c x1 x2 = (1%Z, [(x1, - b / (2 * a))]) /\
     solve a b c = OneRoot (- b / (2 * a))) /\
  ((d <? 0) && (DBL_EPSILON <? abs d) = false ->
   (abs d <? DBL_EPSILON) = false ->
     solve_square a b c x1 x2 =
       (2%Z, [(x1, (- b - sqrt d) / (2 * a));
              (x2, (- b + sqrt d) / (2 * a))]) /\
     solve a b c =
       TwoRoots ((- b - sqrt d) / (2 * a)) ((- b + sqrt d) / (2 * a))) /\
  ((d <? 0) = true -> (abs d <? DBL_EPSILON) = true ->
     solve a b c = OneRoot (- b / (2 * a)) /\ solve a b c <> NoRoots).
Proof.
  intros Ha d.
  apply leb_not_ltb in Ha.
  assert (Hsq : forall p1 p2, solve_square a b c p1 p2 =
    if (d <? 0) && (DBL_EPSILON <? abs d) then (0%Z, [])
    else if abs d <? DBL_EPSILON then (1%Z, [(p1, - b / (2 * a))])
    else (2%Z, [(p1, (- b - sqrt d) / (2 * a));
                (p2, (- b + sqrt d) / (2 * a))])).
  { intros p1 p2. unfold solve_square.
    change (lt (fabs a) DBL_EPSILON) with (abs a <? DBL_EPSILON).
    rewrite Ha. reflexivity. }
  assert (Hlt : (abs d <? DBL_EPSILON) = true ->
                (d <? 0) && (DBL_EPSILON <? abs d) = false).
  { intros Hd. apply andb_false_iff. right.
    destruct (DBL_EPSILON <? abs d) eqn:E; [| reflexivity].
    rewrite ltb_spec in Hd, E. unfold SFltb in Hd, E.
    rewrite (SFcompare_antisym (Prim2SF (abs d)) (Prim2SF DBL_EPSILON)) in E.
    destruct (SFcompare (Prim2SF (abs d)) (Prim2SF DBL_EPSILON)) as [[]|];
      simpl in E; congruence. }
  unfold solve, call. rewrite !Hsq.
  repeat apply conj.
  - intros H0 He. rewrite H0, He. simpl. split; reflexivity.
  - intros Hd. rewrite (Hlt Hd), Hd. simpl. split; reflexivity.
  - intros Hn Hd. rewrite Hn, Hd. simpl. split; reflexivity.
  - intros _ Hd. rewrite (Hlt Hd), Hd. simpl. split; [reflexivity | discriminate].
Qed.

(** C2. The linear fallback.  When [|a| < DBL_EPSILON], [solve_square]
    returns and stores exactly what [solve_linear b c x1] does:
    [INFINITE_ROOTS] when [|b| < DBL_EPSILON] and [|c| < DBL_EPSILON];
    0 when [|b| < DBL_EPSILON] and [|c| >= DBL_EPSILON]; 1 with [-c/b] in
    [*x1] when [|b| >= DBL_EPSILON]. *)
Theorem solve_square_linear (a b c : float) (x1 x2 : ptr) :
  (abs a <? DBL_EPSILON) = true ->
  solve_square a b c x1 x2 = solve_linear b c x1 /\
  ((abs b <? DBL_EPSILON) = true -> (abs c <? DBL_EPSILON) = true ->
     solve_linear b c x1 = (INFINITE_ROOTS, []) /\
     solve a b c = InfiniteRoots) /\
  ((abs b <? DBL_EPSILON) = true -> (DBL_EPSILON <=? abs c) = true ->
     solve_linear b c x1 = (0%Z, []) /\
     solve a b c = NoRoots) /\
  ((DBL_EPSILON <=? abs b) = true ->
     solve_linear b c x1 = (1%Z, [(x1, - c / b)]) /\
     solve a b c = OneRoot (- c / b)).
Proof.
  intros Ha.
  assert (Hsq : forall p1 p2, solve_square a b c p1 p2 = solve_linear b c p1).
  { intros p1 p2. unfold solve_square.
    change (lt (fabs a) DBL_EPSILON) with (abs a <? DBL_EPSILON).
    now rewrite Ha. }
  assert (Hlin : forall p, solve_linear b c p =
    if abs b <? DBL_EPSILON then
      if abs c <? DBL_EPSILON then (INFINITE_ROOTS, []) else (0%Z, [])
    else (1%Z, [(p, - c / b)])) by reflexivity.
  unfold solve, call. rewrite !Hsq, !Hlin.
  repeat apply conj.
  - reflexivity.
  - intros Hb Hc. rewrite Hb, Hc. split; reflexivity.
  - intros Hb Hc. apply leb_not_ltb in Hc. rewrite Hb, Hc. split; reflexivity.
  - intros Hb. apply leb_not_ltb in Hb. rewrite Hb. split; reflexivity.
Qed.
End Binary64.

(* ===================================================================== *)
(** ** The solver in exact real arithmetic *)

Section Exact.
Open Scope R_scope.







End Exact.

(* ===================================================================== *)
(** ** Rounding in the binary64 specification: exact cases and signs *)

Section Rounding.
Open Scope Z_scope.

Lemma iter_pos_iter {A} (f : A -> A) p : forall x, SpecFloat.iter_pos f p x = Pos.iter f x p.
Proof.
  induction p as [p IH | p IH |]; intros x; simpl.
  - rewrite !IH. now rewrite !Pos.iter_swap.
  - now rewrite !IH.
  - reflexivity.
Qed.

Lemma shr_1_double m : shr_1 (Build_shr_record (Zpos m~0) false false) = Build_shr_record (Zpos m) false false.
Proof. reflexivity. Qed.

Lemma shr_exact p : forall m,
  SpecFloat.iter_pos shr_1 p (Build_shr_record (Zpos (Pos.iter xO m p)) false false) =
  Build_shr_record (Zpos m) false false.
Proof.
  intros m. rewrite iter_pos_iter.
  revert m. induction p using Pos.peano_ind; intros m.
  - reflexivity.
  - rewrite Pos.iter_succ_r, Pos.iter_succ. simpl Pos.iter at 2.
    rewrite shr_1_double. apply IHp.
Qed.

Lemma digits2_iter p : forall m,
  Zpos (digits2_pos (Pos.iter xO m p)) = Zpos (digits2_pos m) + Zpos p.
Proof.
  induction p using Pos.peano_ind; intros m.
  - simpl. lia.
  - rewrite Pos.iter_succ. simpl digits2_pos. rewrite Pos2Z.inj_succ, IHp. lia.
Qed.

Lemma round_scaled s m e p :
  canonical_mantissa prec emax m e = true ->
  binary_round_aux prec emax s (Zpos (Pos.iter xO m p)) (e - Zpos p) loc_Exact =
  if e <=? emax - prec then S754_finite s m e else S754_infinity s.
Proof.
  unfold canonical_mantissa. intros Hc. apply Z.eqb_eq in Hc.
  unfold binary_round_aux, shr_fexp.
  unfold Zdigits2 at 1. rewrite digits2_iter.
  replace (Z.pos (digits2_pos m) + Z.pos p + (e - Z.pos p))
    with (Z.pos (digits2_pos m) + e) by lia.
  rewrite Hc.
  replace (e - (e - Z.pos p)) with (Z.pos p) by lia.
  cbn [shr shr_record_of_loc].
  rewrite shr_exact.
  replace (e - Z.pos p + Z.pos p) with e by lia.
  cbn [loc_of_shr_record round_nearest_even shr_m Zdigits2].
  rewrite Hc, Z.sub_diag.
  reflexivity.
Qed.

Lemma pow52 m : (4503599627370496 * m)%positive = Pos.iter xO m 52.
Proof. reflexivity. Qed.

Open Scope float_scope.

Lemma Prim2SF_2 : Prim2SF 2 = S754_finite false 4503599627370496 (-51).
Proof. reflexivity. Qed.
Lemma Prim2SF_eps : Prim2SF 0x1p-52 = S754_finite false 4503599627370496 (-104).
Proof. reflexivity. Qed.


Lemma mul_2_ge (a : float) :
  (0x1p-52 <=? abs a) = true -> (0x1p-52 <=? abs (2 * a)) = true.
Proof.
  rewrite !leb_spec, !abs_spec, mul_spec, Prim2SF_eps, Prim2SF_2.
  pose proof (Prim2SF_valid a) as Hv.
  destruct (Prim2SF a) as [s | s | | s m e]; try discriminate; try (intros _; reflexivity).
  unfold SF64mul, SFmul. rewrite pow52.
  simpl in Hv. unfold bounded in Hv. apply andb_prop in Hv. destruct Hv as [Hc Hb].
  unfold SFleb at 1. cbn [SFabs SFcompare]. intros He.
  assert (Hle : (-104 <= e)%Z).
  { destruct (Z.compare_spec (-104) e); lia. }
  unfold canonical_mantissa in Hc. apply Z.eqb_eq in Hc.
  assert (Hc' : canonical_mantissa prec emax m (e + 1) = true).
  { unfold canonical_mantissa. apply Z.eqb_eq. revert Hc.
    unfold fexp, SpecFloat.emin, prec, emax. lia. }
  replace (-51 + e)%Z with (e + 1 - 52)%Z by lia.
  rewrite round_scaled by assumption.
  destruct (e + 1 <=? emax - prec)%Z; [| reflexivity].
  unfold SFleb. cbn [SFabs SFcompare].
  destruct (Z.compare_spec (-104) (e + 1)); (lia || reflexivity).
Qed.

Lemma round_aux_opp s m e l :
  binary_round_aux prec emax (negb s) m e l =
  SFopp (binary_round_aux prec emax s m e l).
Proof.
  unfold binary_round_aux.
  destruct (shr_fexp prec emax m e l) as [mrs' e'].
  destruct (shr_fexp prec emax _ e' loc_Exact) as [mrs'' e''].
  destruct (shr_m mrs''); try reflexivity.
  destruct (e'' <=? emax - prec)%Z; reflexivity.
Qed.

Lemma negb_xorb_l' a b : xorb (negb a) b = negb (xorb a b).
Proof. now destruct a, b. Qed.
Lemma negb_xorb_r' a b : xorb a (negb b) = negb (xorb a b).
Proof. now destruct a, b. Qed.



Lemma SFdiv_opp_l x y : SF64div (SFopp x) y = SFopp (SF64div x y).
Proof.
  destruct x as [sx | sx | | sx mx ex], y as [sy | sy | | sy my ey];
    simpl; try reflexivity; rewrite ?negb_xorb_l'; try reflexivity.
  destruct (SFdiv_core_binary prec emax (Z.pos mx) ex (Z.pos my) ey) as [[mz ez] lz].
  apply round_aux_opp.
Qed.

Lemma SFdiv_opp_r x y : SF64div x (SFopp y) = SFopp (SF64div x y).
Proof.
  destruct x as [sx | sx | | sx mx ex], y as [sy | sy | | sy my ey];
    simpl; try reflexivity; rewrite ?negb_xorb_r'; try reflexivity.
  destruct (SFdiv_core_binary prec emax (Z.pos mx) ex (Z.pos my) ey) as [[mz ez] lz].
  apply round_aux_opp.
Qed.

Definition SFsame (x y : spec_float) : Prop :=
  x = y \/ exists s s', x = S754_zero s /\ y = S754_zero s'.






Lemma SFsame_opp x y : SFsame x y -> SFsame (SFopp x) (SFopp y).
Proof.
  intros [-> | (s & s' & -> & ->)]; [now left | right; simpl; eauto].
Qed.
End Rounding.

(* ===================================================================== *)
(** ** Edge cases of the solver on binary64 numbers *)




(** What a call returns and stores, with the size of every divisor and of
    the argument of [sqrt]. *)
Inductive checked (a b c : float) (x1 x2 : ptr) : Action float Z -> Prop :=
| chk_infinite : checked a b c x1 x2 (INFINITE_ROOTS, [])
| chk_none : checked a b c x1 x2 (0%Z, [])
| chk_linear :
    (DBL_EPSILON <=? abs b)%float = true ->
    checked a b c x1 x2 (1%Z, [(x1, (- c / b)%float)])
| chk_tangent :
    (DBL_EPSILON <=? abs (2 * a))%float = true ->
    checked a b c x1 x2 (1%Z, [(x1, (- b / (2 * a))%float)])
| chk_two :
    let d := (b * b - 4 * a * c)%float in
    (DBL_EPSILON <=? abs (2 * a))%float = true ->
    (is_nan d = false -> (d =? - DBL_EPSILON)%float = false ->
     (DBL_EPSILON <=? d)%float = true /\ (0 <? d)%float = true) ->
    checked a b c x1 x2
      (2%Z, [(x1, ((- b - sqrt d) / (2 * a))%float);
             (x2, ((- b + sqrt d) / (2 * a))%float)]).

Section Edges.
Open Scope float_scope.

(** [solve] on binary64 numbers, test by test. *)
Lemma solve_binary64 (a b c : float) :
  solve a b c =
  if abs a <? DBL_EPSILON then
    if abs b <? DBL_EPSILON then
      if abs c <? DBL_EPSILON then InfiniteRoots else NoRoots
    else OneRoot (- c / b)
  else
    let d := b * b - 4 * a * c in
    if (d <? 0) && (DBL_EPSILON <? abs d) then NoRoots
    else if abs d <? DBL_EPSILON then OneRoot (- b / (2 * a))
    else TwoRoots ((- b - sqrt d) / (2 * a)) ((- b + sqrt d) / (2 * a)).
Proof.
  unfold solve, call, solve_square, solve_linear.
  change (lt (fabs a) DBL_EPSILON) with (abs a <? DBL_EPSILON).
  change (lt (fabs b) DBL_EPSILON) with (abs b <? DBL_EPSILON).
  change (lt (fabs c) DBL_EPSILON) with (abs c <? DBL_EPSILON).
  change (discriminant a b c) with (b * b - 4 * a * c).
  set (d := b * b - 4 * a * c).
  change (lt d (lit 0)) with (d <? 0).
  change (gt (fabs d) DBL_EPSILON) with (DBL_EPSILON <? abs d).
  change (lt (fabs d) DBL_EPSILON) with (abs d <? DBL_EPSILON).
  destruct (abs a <? DBL_EPSILON).
  - destruct (abs b <? DBL_EPSILON); [destruct (abs c <? DBL_EPSILON) |];
      reflexivity.
  - destruct ((d <? 0) && (DBL_EPSILON <? abs d)); [reflexivity |].
    destruct (abs d <? DBL_EPSILON); reflexivity.
Qed.

Lemma is_nan_spec (x : float) : is_nan x = false -> Prim2SF x <> S754_nan.
Proof.
  unfold is_nan. rewrite eqb_spec. intros H E. rewrite E in H. discriminate.
Qed.

Lemma is_nan_abs (x : float) : is_nan (abs x) = is_nan x.
Proof.
  unfold is_nan. rewrite !eqb_spec, abs_spec.
  destruct (Prim2SF x) as [s | s | | s m e]; try reflexivity;
    destruct s; unfold SFeqb; simpl; try reflexivity;
    rewrite ?Z.compare_refl, ?Pos.compare_cont_refl; reflexivity.
Qed.

Lemma Prim2SF_0 : Prim2SF 0 = S754_zero false.
Proof. reflexivity. Qed.

(** Outside the band [|d| < DBL_EPSILON] and not below it, a discriminant
    that is a number is at least [DBL_EPSILON], or is [-DBL_EPSILON]. *)
Lemma sqrt_argument (d : float) :
  (d <? 0) && (DBL_EPSILON <? abs d) = false ->
  (abs d <? DBL_EPSILON) = false ->
  is_nan d = false ->
  (d =? - DBL_EPSILON) = false ->
  (DBL_EPSILON <=? d) = true /\ (0 <? d) = true.
Proof.
  unfold is_nan.
  rewrite !ltb_spec, leb_spec, !eqb_spec, opp_spec, abs_spec.
  change (@DBL_EPSILON float binary64) with 0x1p-52.
  rewrite Prim2SF_eps, Prim2SF_0.
  destruct (Prim2SF d) as [s | s | | s m e].
  - destruct s; simpl; intros; discriminate.
  - destruct s; simpl; intros; (discriminate || (split; reflexivity)).
  - simpl; intros; discriminate.
  - intros H1 H2 _ H3. revert H1 H2 H3.
    generalize 4503599627370496%positive (-104)%Z. intros m' e'.
    unfold SFltb, SFleb, SFeqb, SFabs, SFopp, SFcompare, negb.
    change (Pos.compare_cont Eq m m') with (Pos.compare m m').
    change (Pos.compare_cont Eq m' m) with (Pos.compare m' m).
    rewrite (Z.compare_antisym e e'), (Pos.compare_antisym m m').
    destruct s, (e ?= e')%Z, (m ?= m')%positive; simpl; intros;
      try discriminate; split; reflexivity.
Qed.

(** C5, as amended.  [solve_square] ends in one of its four ways for every
    input.  When [a] and [b] are numbers (finite or infinite, not NaN),
    every divisor it uses has magnitude at least [DBL_EPSILON]: [b] in the
    linear fallback, [2*a] in the quadratic branch.  The argument [d] of
    [sqrt] is at least [DBL_EPSILON], hence positive, whenever it is a
    number other than [-DBL_EPSILON]. *)
Theorem solve_square_checked (a b c : float) (x1 x2 : ptr) :
  is_nan a = false -> is_nan b = false ->
  checked a b c x1 x2 (solve_square a b c x1 x2).
Proof.
  intros Na Nb.
  unfold solve_square, solve_linear.
  change (lt (fabs a) DBL_EPSILON) with (abs a <? DBL_EPSILON).
  change (lt (fabs b) DBL_EPSILON) with (abs b <? DBL_EPSILON).
  change (lt (fabs c) DBL_EPSILON) with (abs c <? DBL_EPSILON).
  change (discriminant a b c) with (b * b - 4 * a * c).
  set (d := b * b - 4 * a * c).
  change (lt d (lit 0)) with (d <? 0).
  change (gt (fabs d) DBL_EPSILON) with (DBL_EPSILON <? abs d).
  change (lt (fabs d) DBL_EPSILON) with (abs d <? DBL_EPSILON).
  destruct (abs a <? DBL_EPSILON) eqn:Ea.
  - destruct (abs b <? DBL_EPSILON) eqn:Eb.
    + destruct (abs c <? DBL_EPSILON); constructor.
    + apply chk_linear. apply not_ltb_leb; trivial. now rewrite is_nan_abs.
  - assert (H2a : (DBL_EPSILON <=? abs (2 * a)) = true).
    { apply mul_2_ge. apply not_ltb_leb; trivial. now rewrite is_nan_abs. }
    destruct ((d <? 0) && (DBL_EPSILON <? abs d)) eqn:En; [constructor |].
    destruct (abs d <? DBL_EPSILON) eqn:Ed.
    + now apply chk_tangent.
    + apply chk_two; trivial. intros Nd Hd. now apply sqrt_argument.
Qed.

(** *** Changing the sign of all three coefficients *)










End Edges.

(* ===================================================================== *)
(** ** Where the solver departs from the mathematics *)

Section Departures.
Open Scope float_scope.



(** C5 fails where the discriminant overflows: for the finite coefficients
    [a = b = c = 2^600] both products are infinite, their difference is
    NaN, and this NaN is passed to [sqrt]. *)
Lemma sqrt_argument_counterexample :
  is_finite 0x1p600 = true /\
  fst (solve_square 0x1p600 0x1p600 0x1p600 addr_x1 addr_x2) = 2%Z /\
  is_nan (discriminant 0x1p600 0x1p600 0x1p600) = true /\
  (0 <? discriminant 0x1p600 0x1p600 0x1p600) = false /\
  solve 0x1p600 0x1p600 0x1p600 = TwoRoots nan nan.
Proof. repeat split; vm_compute; reflexivity. Qed.


End Departures.

Section ExactOrder.
Open Scope R_scope.

End ExactOrder.

(* ===================================================================== *)
(** ** The theorems at concrete inputs *)

Lemma solve_square_quadratic_witness :
  (DBL_EPSILON <=? abs 1)%float = true /\
  solve 1%float (-2)%float 1%float = OneRoot (- (-2) / (2 * 1))%float.
Proof.
  split; [reflexivity |].
  exact (proj2 (proj1 (proj2
    (@solve_square_quadratic 1%float (-2)%float 1%float 0 1 eq_refl))
    eq_refl)).
Defined.

Lemma solve_square_linear_witness :
  (abs 0 <? DBL_EPSILON)%float = true /\
  (DBL_EPSILON <=? abs 2)%float = true /\
  solve 0%float 2%float (-4)%float = OneRoot (- (-4) / 2)%float.
Proof.
  split; [reflexivity | split; [reflexivity |]].
  exact (proj2 (proj2 (proj2 (proj2
    (@solve_square_linear 0%float 2%float (-4)%float 0 1 eq_refl)))
    eq_refl)).
Defined.

Lemma solve_square_checked_witness :
  is_nan 1%float = false /\ is_nan 0%float = false /\
  checked 1%float 0%float (-1)%float 0 1
    (solve_square 1%float 0%float (-1)%float 0 1).
Proof.
  split; [reflexivity | split; [reflexivity |]].
  exact (@solve_square_checked 1%float 0%float (-1)%float 0 1 eq_refl eq_refl).
Defined.



(* ===================================================================== *)
(** ** Reading the coefficients: [input], [clear_stdin] and [main] *)

(** [const int ERR_INPUT_TRIES = 3;] *)
Definition ERR_INPUT_TRIES : Z := 3.

(** [EOF] of [<stdio.h>]. *)
Definition EOF : Z := -1.

(** What one call [scanf("%lg", value)] finds on the standard input: a
    number, which it stores; text that is no number, which it leaves
    unread; or the end of the input. *)
Inductive scan (T : Type) :=
| Converted (v : T)
| Mismatch
| EndOfInput.

Arguments Converted {T} v.
Arguments Mismatch {T}.
Arguments EndOfInput {T}.

(** The lines that the program prints, one constructor per [printf]. *)
Inductive message (T : Type) :=
| Banner
| Intro
| Prompt (name : String.string)
| IncorrectInput
| TryAgain
| LastTry
| Result (r : RootResult T).

Arguments Banner {T}.
Arguments Intro {T}.
Arguments Prompt {T} name.
Arguments IncorrectInput {T}.
Arguments TryAgain {T}.
Arguments LastTry {T}.
Arguments Result {T} r.

(** The calls of the C library that the program makes, in order. *)
Inductive event (T : Type) :=
| Printed (line : message T)
| ScannedDouble (found : scan T)
| ScannedToken.

Arguments Printed {T} line.
Arguments ScannedDouble {T} found.
Arguments ScannedToken {T}.

(** The standard streams: what the calls [scanf("%lg", _)] still to come
    will find (after the list, the end of the input), and the calls made
    so far. *)
Record world (T : Type) := {
  stdin : list (scan T);
  trace : list (event T)
}.

(** The state of the loop of [input]. *)
Record input_state (T : Type) := {
  s_tries : Z;
  s_result : Z;
  s_value : T;
  s_io : world T
}.

(** [while (cond) body], run for at most [fuel] rounds. *)
Fixpoint while {S : Type} (fuel : nat) (cond : S -> bool) (body : S -> S)
    (s : S) : option S :=
  if cond s then
    match fuel with
    | O => None
    | Datatypes.S fuel' => while fuel' cond body (body s)
    end
  else Some s.

Section Input.
Context {T : Type} `{DoubleArith T}.

Definition log (e : event T) (w : world T) : world T :=
  {| stdin := stdin w; trace := trace w ++ [e] |}.

Definition printf (line : message T) (w : world T) : world T :=
  log (Printed line) w.

(** [scanf("%lg", value)]: the number of items stored (or [EOF]), the
    content of [*value] afterwards, and the streams afterwards. *)
Definition scanf_lg (value : T) (w : world T) : Z * T * world T :=
  match stdin w with
  | [] => (EOF, value, log (ScannedDouble EndOfInput) w)
  | found :: rest =>
      let w' := {| stdin := rest; trace := trace w ++ [ScannedDouble found] |} in
      match found with
      | Converted v => (1%Z, v, w')
      | Mismatch => (0%Z, value, w')
      | EndOfInput => (EOF, value, w')
      end
  end.

(** [void clear_stdin()]: one call [scanf("%s", trash)], which skips the
    next word of the input.  (A word of 256 characters or more overruns
    [trash]; the model does not cover that.) *)
Definition clear_stdin (w : world T) : world T :=
  log ScannedToken w.

(** [(tries < ERR_INPUT_TRIES) && (result == 0)] *)
Definition input_cond (s : input_state T) : bool :=
  (s_tries s <? ERR_INPUT_TRIES)%Z && (s_result s =? 0)%Z.

(** The body of the loop of [input]. *)
Definition input_body (name : String.string) (s : input_state T) :
    input_state T :=
  let w := printf (Prompt name) (s_io s) in
  let '(result, value, w) := scanf_lg (s_value s) w in
  if (result =? 0)%Z then
    let tries := (s_tries s + 1)%Z in
    let w := clear_stdin w in
    let w := printf IncorrectInput w in
    let w :=
      if (tries <? ERR_INPUT_TRIES)%Z then printf TryAgain w
      else printf LastTry w in
    {| s_tries := tries; s_result := result; s_value := value; s_io := w |}
  else
    {| s_tries := s_tries s; s_result := result; s_value := value; s_io := w |}.

(** [int input(const char name[], double* value)]: the value returned, the
    content of [*value] afterwards, and the streams afterwards. *)
Definition input (fuel : nat) (name : String.string) (value : T)
    (w : world T) : option (Z * T * world T) :=
  match
    while fuel input_cond (input_body name)
      {| s_tries := 0; s_result := 0; s_value := value; s_io := w |}
  with
  | Some s => Some (s_result s, s_value s, s_io s)
  | None => None
  end.

(** [int main()]: the streams when it returns.  [!input(...)] holds when
    [input] returned 0. *)
Definition main (fuel : nat) (w : world T) : option (world T) :=
  let w := printf Banner w in
  let w := printf Intro w in
  let a := lit 0 in
  let b := lit 0 in
  let c := lit 0 in
  match input fuel "A"%string a w with
  | None => None
  | Some (r, a, w) =>
  if (r =? 0)%Z then Some w else
  match input fuel "B"%string b w with
  | None => None
  | Some (r, b, w) =>
  if (r =? 0)%Z then Some w else
  match input fuel "C"%string c w with
  | None => None
  | Some (r, c, w) =>
  if (r =? 0)%Z then Some w else
  Some (printf (Result (solve a b c)) w)
  end end end.
End Input.





Section InputProperties.
Context {T : Type}.

Lemma while_done {S} fuel (cond : S -> bool) body s :
  cond s = false -> while fuel cond body s = Some s.
Proof. intros E. destruct fuel; simpl; now rewrite E. Qed.

Lemma while_step {S} fuel (cond : S -> bool) body s :
  cond s = true ->
  while (Datatypes.S fuel) cond body s = while fuel cond body (body s).
Proof. intros E. simpl. now rewrite E. Qed.






End InputProperties.

Section MainProperties.
Context {T : Type} `{DoubleArith T}.

Lemma input_number (fuel : nat) (name : string) (value x : T) rest tr :
  (1 <= fuel)%nat ->
  input fuel name value {| stdin := Converted x :: rest; trace := tr |} =
  Some (1%Z, x,
        {| stdin := rest;
           trace := tr ++ [Printed (Prompt name); ScannedDouble (Converted x)] |}).
Proof.
  intros Hfuel. destruct fuel as [| fuel]; [lia |].
  unfold input. rewrite while_step by reflexivity.
  rewrite while_done by reflexivity.
  cbv -[app]. now rewrite <- app_assoc.
Qed.

Lemma input_at_end (fuel : nat) (name : string) (value : T) tr :
  (1 <= fuel)%nat ->
  input fuel name value {| stdin := []; trace := tr |} =
  Some (EOF, value,
        {| stdin := [];
           trace := tr ++ [Printed (Prompt name); ScannedDouble EndOfInput] |}).
Proof.
  intros Hfuel. destruct fuel as [| fuel]; [lia |].
  unfold input. rewrite while_step by reflexivity.
  rewrite while_done by reflexivity.
  cbv -[app]. now rewrite <- app_assoc.
Qed.



(** The dialogue of an accepted or ended round. *)
Definition answered (name : string) (found : scan T) : list (event T) :=
  [Printed (Prompt name); ScannedDouble found].

(** X5. [main] on an input of at most three numbers and nothing else:
    the coefficients that the input provides are read in the order A, B,
    C, each after one prompt; a coefficient for which the input has ended
    keeps its initial value 0, because [input] returns [EOF], which is not
    0; and the report printed is that of [solve] on these coefficients. *)
Theorem main_numbers (fuel : nat) (nums : list T) (tr : list (event T)) :
  (Z.to_nat ERR_INPUT_TRIES <= fuel)%nat ->
  (length nums <= 3)%nat ->
  let found i :=
    match nth_error nums i with
    | Some x => Converted x
    | None => EndOfInput
    end in
  let a := nth 0 nums (lit 0) in
  let b := nth 1 nums (lit 0) in
  let c := nth 2 nums (lit 0) in
  main fuel {| stdin := map Converted nums; trace := tr |} =
  Some {| stdin := [];
          trace := tr ++ [Printed Banner; Printed Intro] ++
                   answered "A" (found 0%nat) ++ answered "B" (found 1%nat) ++
                   answered "C" (found 2%nat) ++
                   [Printed (Result (solve a b c))] |}.
Proof.
  intros Hfuel Hlen found a b c. subst found a b c.
  assert (H1 : (1 <= fuel)%nat) by (cbv in Hfuel; lia).
  destruct nums as [| a [| b [| c [| d nums]]]]; simpl in Hlen; try lia;
    unfold main, printf, log; cbn [stdin trace map];
    rewrite ?input_number, ?input_at_end by assumption;
    cbn [Z.eqb EOF stdin trace];
    rewrite ?input_number, ?input_at_end by assumption;
    cbn [Z.eqb EOF stdin trace];
    rewrite ?input_number, ?input_at_end by assumption;
    cbn [Z.eqb EOF stdin trace nth nth_error answered app];
    rewrite <- ?app_assoc; reflexivity.
Qed.



End MainProperties.

(* ===================================================================== *)
(** ** Coefficients that are no numbers, and the edge of the band *)

Section NotANumber.
Open Scope float_scope.

Lemma Prim2SF_nan : Prim2SF nan = S754_nan.
Proof. reflexivity. Qed.

Lemma nan_of_spec (x : float) : Prim2SF x = S754_nan -> x = nan.
Proof. intros E. apply Prim2SF_inj. now rewrite E. Qed.

Lemma opp_nan : - nan = nan.
Proof. reflexivity. Qed.

Lemma abs_nan : abs nan = nan.
Proof. reflexivity. Qed.

Lemma sqrt_nan : sqrt nan = nan.
Proof. reflexivity. Qed.

Lemma ltb_nan_l (x : float) : (nan <? x) = false.
Proof. now rewrite ltb_spec, Prim2SF_nan. Qed.

Lemma ltb_nan_r (x : float) : (x <? nan) = false.
Proof.
  rewrite ltb_spec, Prim2SF_nan. unfold SFltb.
  now destruct (Prim2SF x).
Qed.

Lemma mul_nan_l (x : float) : nan * x = nan.
Proof. apply nan_of_spec. now rewrite mul_spec, Prim2SF_nan. Qed.

Lemma mul_nan_r (x : float) : x * nan = nan.
Proof.
  apply nan_of_spec. rewrite mul_spec, Prim2SF_nan.
  now destruct (Prim2SF x).
Qed.

Lemma add_nan_r (x : float) : x + nan = nan.
Proof.
  apply nan_of_spec. rewrite add_spec, Prim2SF_nan.
  now destruct (Prim2SF x).
Qed.

Lemma sub_nan_l (x : float) : nan - x = nan.
Proof. apply nan_of_spec. now rewrite sub_spec, Prim2SF_nan. Qed.

Lemma sub_nan_r (x : float) : x - nan = nan.
Proof.
  apply nan_of_spec. rewrite sub_spec, Prim2SF_nan.
  now destruct (Prim2SF x).
Qed.

Lemma div_nan_l (x : float) : nan / x = nan.
Proof. apply nan_of_spec. now rewrite div_spec, Prim2SF_nan. Qed.

Lemma div_nan_r (x : float) : x / nan = nan.
Proof.
  apply nan_of_spec. rewrite div_spec, Prim2SF_nan.
  now destruct (Prim2SF x).
Qed.

(** X8. Coefficients that are NaN (which [scanf("%lg", _)] accepts) are
    not rejected: every root reported is then NaN.  A NaN leading
    coefficient gives "two roots", both NaN.  A NaN [b] or [c] gives "two
    roots", both NaN, in the quadratic branch; in the linear fallback a
    NaN [b] gives the one root NaN, and a NaN [c] gives "no roots" when
    [|b| < DBL_EPSILON] and the one root NaN otherwise. *)
Theorem solve_nan (a b c : float) :
  solve nan b c = TwoRoots nan nan /\
  solve a nan c =
    (if abs a <? DBL_EPSILON then OneRoot nan else TwoRoots nan nan) /\
  solve a b nan =
    (if abs a <? DBL_EPSILON then
       if abs b <? DBL_EPSILON then NoRoots else OneRoot nan
     else TwoRoots nan nan).
Proof.
  rewrite !solve_binary64. cbv zeta.
  repeat split.
  - rewrite abs_nan, ltb_nan_l, mul_nan_r, mul_nan_l, sub_nan_r.
    rewrite abs_nan, !ltb_nan_l, sqrt_nan, sub_nan_r, add_nan_r.
    now rewrite !div_nan_l.
  - destruct (abs a <? DBL_EPSILON).
    + now rewrite abs_nan, ltb_nan_l, div_nan_r.
    + rewrite mul_nan_l, sub_nan_l.
      rewrite abs_nan, !ltb_nan_l, sqrt_nan, sub_nan_r, add_nan_r.
      now rewrite !div_nan_l.
  - destruct (abs a <? DBL_EPSILON).
    + destruct (abs b <? DBL_EPSILON).
      * now rewrite abs_nan, ltb_nan_l.
      * now rewrite opp_nan, div_nan_l.
    + rewrite mul_nan_r, sub_nan_r.
      rewrite abs_nan, !ltb_nan_l, sqrt_nan, sub_nan_r, add_nan_r.
      now rewrite !div_nan_l.
Qed.

Lemma eqb_neg_eps (d : float) :
  (d =? - DBL_EPSILON) = true -> d = - DBL_EPSILON.
Proof.
  rewrite eqb_spec. intros E. apply Prim2SF_inj. revert E.
  change (Prim2SF (- DBL_EPSILON))
    with (S754_finite true 4503599627370496 (-104)).
  generalize 4503599627370496%positive (-104)%Z. intros m' e'.
  unfold SFeqb, SFcompare.
  destruct (Prim2SF d) as [s | s | | s m e]; try discriminate;
    try (destruct s; discriminate).
  destruct s; try discriminate.
  destruct (Z.compare_spec e e') as [-> | |]; try discriminate.
  change (Pos.compare_cont Eq m m') with (Pos.compare m m').
  destruct (Pos.compare_spec m m') as [-> | |]; try discriminate.
  reflexivity.
Qed.

(** X9. The edge of the band.  When [|a| < DBL_EPSILON] fails and the
    discriminant is exactly [-DBL_EPSILON], neither [fabs(d) > DBL_EPSILON]
    nor [fabs(d) < DBL_EPSILON] holds, so the last branch takes the
    square root of a negative number: the call returns 2 and both roots
    stored are NaN. *)
Theorem solve_square_band_edge (a b c : float) (x1 x2 : ptr) :
  (abs a <? DBL_EPSILON) = false ->
  (discriminant a b c =? - DBL_EPSILON) = true ->
  solve_square a b c x1 x2 = (2%Z, [(x1, nan); (x2, nan)]) /\
  solve a b c = TwoRoots nan nan.
Proof.
  intros Ha Hd. apply eqb_neg_eps in Hd.
  assert (Hsq : forall p1 p2,
    solve_square a b c p1 p2 = (2%Z, [(p1, nan); (p2, nan)])).
  { intros p1 p2. unfold solve_square.
    change (lt (fabs a) DBL_EPSILON) with (abs a <? DBL_EPSILON).
    rewrite Ha, Hd.
    change (sqrt (- DBL_EPSILON)) with nan.
    change (lt (- DBL_EPSILON) (lit 0) && gt (fabs (- DBL_EPSILON)) DBL_EPSILON)
      with false.
    change (lt (fabs (- DBL_EPSILON)) DBL_EPSILON) with false.
    cbv iota.
    change (sub (neg b) nan) with (- b - nan).
    change (add (neg b) nan) with (- b + nan).
    rewrite sub_nan_r, add_nan_r.
    change (div nan (mul (lit 2) a)) with (nan / (2 * a)).
    now rewrite div_nan_l. }
  split; [apply Hsq |].
  unfold solve, call. now rewrite Hsq.
Qed.
End NotANumber.

(* ===================================================================== *)
(** ** One cell for both roots *)

Section Aliasing.
Context {T : Type} `{DoubleArith T}.

(** X10. When the same cell is passed for both output parameters and the
    call returns 2, the first root is overwritten by the second: the
    cell holds [(-b + sqrt d) / (2*a)], and a caller that reads the cell
    twice, as [main] reads [x1] and [x2], sees the second root twice. *)
Theorem solve_square_aliased (a b c : T) (p : ptr) (m : mem T) :
  fst (solve_square a b c p p) = 2%Z ->
  let d := discriminant a b c in
  let r2 := div (add (neg b) (sqrt d)) (mul (lit 2) a) in
  commit (snd (solve_square a b c p p)) m p = r2 /\
  call a b c p p m = TwoRoots r2 r2.
Proof.
  unfold call, solve_square, solve_linear.
  destruct (lt (fabs a) DBL_EPSILON).
  - destruct (lt (fabs b) DBL_EPSILON);
      [destruct (lt (fabs c) DBL_EPSILON) |]; discriminate.
  - destruct (lt (discriminant a b c) (lit 0) &&
              gt (fabs (discriminant a b c)) DBL_EPSILON); [discriminate |].
    destruct (lt (fabs (discriminant a b c)) DBL_EPSILON); [discriminate |].
    intros _. simpl. rewrite !upd_same. split; reflexivity.
Qed.
End Aliasing.

(* ===================================================================== *)
(** ** The reports in exact real arithmetic *)

Section ExactReports.
Open Scope R_scope.



End ExactReports.

(* ===================================================================== *)
(** ** The order of the two roots in binary64

    The two roots are [(-b - s) / t] and [(-b + s) / t] with [s] a square
    root and [t = 2 * a].  A square root that is a number is not negative,
    so the first numerator is not above the second, and division by [t]
    keeps the order when [t] is positive and reverses it when [t] is
    negative.  Both steps rest on the monotonicity of rounding, which is
    proved here from the definition of [binary_round_aux]. *)

Section Semantics.
Open Scope R_scope.

Definition bpow (e : Z) : R := powerRZ 2 e.

Definition F2R (m e : Z) : R := IZR m * bpow e.

Lemma bpow_pos e : 0 < bpow e.
Proof. apply powerRZ_lt. lra. Qed.

Lemma bpow_add a b : bpow (a + b) = bpow a * bpow b.
Proof. apply powerRZ_add. lra. Qed.

Lemma bpow_succ e : bpow (e + 1) = 2 * bpow e.
Proof. rewrite bpow_add. unfold bpow at 2. simpl. lra. Qed.

Lemma bpow_ge_1 n : (0 <= n)%Z -> 1 <= bpow n.
Proof.
  intros Hn. pattern n. apply natlike_ind; [| | exact Hn].
  - unfold bpow. simpl. lra.
  - intros k Hk IH. unfold Z.succ. rewrite bpow_succ. lra.
Qed.

Lemma bpow_le a b : (a <= b)%Z -> bpow a <= bpow b.
Proof.
  intros H. replace b with (a + (b - a))%Z by lia.
  rewrite bpow_add.
  pose proof (bpow_pos a). pose proof (@bpow_ge_1 (b - a) ltac:(lia)). nra.
Qed.

Lemma bpow_lt a b : (a < b)%Z -> bpow a < bpow b.
Proof.
  intros H. replace b with ((a + 1) + (b - a - 1))%Z by lia.
  rewrite bpow_add, bpow_succ.
  pose proof (bpow_pos a). pose proof (@bpow_ge_1 (b - a - 1) ltac:(lia)). nra.
Qed.

Lemma bpow_lt_inv a b : bpow a < bpow b -> (a < b)%Z.
Proof.
  intros H. destruct (Z_lt_le_dec a b) as [|Hle]; trivial.
  apply bpow_le in Hle. lra.
Qed.

Lemma bpow_IZR n : (0 <= n)%Z -> bpow n = IZR (2 ^ n).
Proof.
  intros Hn. pattern n. apply natlike_ind; [| | exact Hn].
  - reflexivity.
  - intros k Hk IH. unfold Z.succ. rewrite bpow_succ, IH.
    rewrite Z.pow_add_r, Z.pow_1_r by lia. rewrite mult_IZR. lra.
Qed.

Lemma digits2_bounds (m : positive) :
  (2 ^ (Zpos (digits2_pos m) - 1) <= Zpos m < 2 ^ Zpos (digits2_pos m))%Z.
Proof.
  induction m as [m IH | m IH |]; simpl digits2_pos.
  - rewrite Pos2Z.inj_succ.
    replace (Z.succ (Zpos (digits2_pos m)) - 1)%Z with ((Zpos (digits2_pos m) - 1) + 1)%Z by lia.
    unfold Z.succ. rewrite !Z.pow_add_r by lia. lia.
  - rewrite Pos2Z.inj_succ.
    replace (Z.succ (Zpos (digits2_pos m)) - 1)%Z with ((Zpos (digits2_pos m) - 1) + 1)%Z by lia.
    unfold Z.succ. rewrite !Z.pow_add_r by lia. lia.
  - simpl. lia.
Qed.

(** The value [m * 2^e] of a positive mantissa lies in its binade. *)
Lemma F2R_bounds (m : positive) (e : Z) :
  bpow (Zpos (digits2_pos m) + e - 1) <= F2R (Zpos m) e /\
  F2R (Zpos m + 1) e <= bpow (Zpos (digits2_pos m) + e).
Proof.
  destruct (digits2_bounds m) as [Hl Hu].
  pose proof (bpow_pos e) as He.
  unfold F2R. split.
  - replace (Zpos (digits2_pos m) + e - 1)%Z with ((Zpos (digits2_pos m) - 1) + e)%Z by lia.
    rewrite bpow_add, bpow_IZR by lia.
    apply Rmult_le_compat_r; [left; exact He |]. now apply IZR_le.
  - rewrite bpow_add, (@bpow_IZR (Zpos (digits2_pos m))) by lia.
    apply Rmult_le_compat_r; [left; exact He |]. apply IZR_le. lia.
Qed.

(** [x] lies at the place [l] of the interval [[m*2^e, (m+1)*2^e)]. *)
Definition loc_ok (x : R) (m e : Z) (l : location) : Prop :=
  match l with
  | loc_Exact => x = F2R m e
  | loc_Inexact Lt => F2R m e < x < F2R m e + bpow e / 2
  | loc_Inexact Eq => x = F2R m e + bpow e / 2
  | loc_Inexact Gt => F2R m e + bpow e / 2 < x < F2R m e + bpow e
  end.

Lemma loc_ok_bounds x m e l :
  loc_ok x m e l -> F2R m e <= x < F2R m e + bpow e.
Proof.
  pose proof (bpow_pos e).
  destruct l as [| []]; unfold loc_ok; lra.
Qed.

Lemma loc_of_record m l :
  loc_of_shr_record (shr_record_of_loc m l) = l /\
  shr_m (shr_record_of_loc m l) = m.
Proof. destruct l as [| []]; split; reflexivity. Qed.

Lemma IZR_xO p : IZR (Zpos p~0) = 2 * IZR (Zpos p).
Proof. rewrite Pos2Z.inj_xO, mult_IZR. reflexivity. Qed.

Lemma IZR_xI p : IZR (Zpos p~1) = 2 * IZR (Zpos p) + 1.
Proof. rewrite Pos2Z.inj_xI, plus_IZR, mult_IZR. reflexivity. Qed.

Lemma shr_1_ok x mrs e :
  (0 <= shr_m mrs)%Z ->
  loc_ok x (shr_m mrs) e (loc_of_shr_record mrs) ->
  (0 <= shr_m (shr_1 mrs))%Z /\
  loc_ok x (shr_m (shr_1 mrs)) (e + 1) (loc_of_shr_record (shr_1 mrs)).
Proof.
  destruct mrs as [m r s]. cbn [shr_m].
  pose proof (bpow_pos e) as He.
  intros Hm.
  destruct m as [| p | p]; [| destruct p as [p | p |] | lia];
    destruct r, s;
    cbn [shr_1 shr_m shr_r shr_s loc_of_shr_record orb];
    unfold loc_ok, F2R; rewrite bpow_succ;
    rewrite ?(IZR_xO p), ?(IZR_xI p); intros Hx; (split; [lia |]);
    lra.
Qed.

Lemma shr_iter_ok x e p : forall mrs,
  (0 <= shr_m mrs)%Z ->
  loc_ok x (shr_m mrs) e (loc_of_shr_record mrs) ->
  (0 <= shr_m (Pos.iter shr_1 mrs p))%Z /\
  loc_ok x (shr_m (Pos.iter shr_1 mrs p)) (e + Zpos p)
    (loc_of_shr_record (Pos.iter shr_1 mrs p)).
Proof.
  induction p using Pos.peano_ind; intros mrs Hm Hx.
  - now apply shr_1_ok.
  - rewrite Pos.iter_succ.
    destruct (IHp mrs Hm Hx) as [Hm' Hx'].
    replace (e + Zpos (Pos.succ p))%Z with ((e + Zpos p) + 1)%Z by lia.
    now apply shr_1_ok.
Qed.

(** The first stage of rounding: the mantissa is cut at the exponent that
    the format gives to the binade. *)
Lemma shr_fexp_ok x m e l :
  (0 <= m)%Z -> loc_ok x m e l ->
  let mrs := fst (shr_fexp prec emax m e l) in
  let e' := snd (shr_fexp prec emax m e l) in
  (0 <= shr_m mrs)%Z /\
  e' = Z.max e (SpecFloat.fexp prec emax (Zdigits2 m + e)) /\
  loc_ok x (shr_m mrs) e' (loc_of_shr_record mrs).
Proof.
  intros Hm Hx. unfold shr_fexp, shr.
  destruct (loc_of_record m l) as [El Em].
  set (f := SpecFloat.fexp prec emax (Zdigits2 m + e)).
  destruct (f - e)%Z as [| p | p] eqn:Ed; cbn [fst snd].
  - rewrite El, Em. repeat split; trivial. lia.
  - rewrite iter_pos_iter.
    destruct (@shr_iter_ok x e p (shr_record_of_loc m l)) as [H1 H2].
    + now rewrite Em.
    + now rewrite El, Em.
    + repeat split; trivial. lia.
  - rewrite El, Em. repeat split; trivial. lia.
Qed.

Lemma rne_bounds m l :
  (m <= round_nearest_even m l <= m + 1)%Z.
Proof.
  destruct l as [| []]; simpl; try lia.
  destruct (Z.even m); lia.
Qed.

Lemma F2R_le m1 m2 e : (m1 <= m2)%Z -> F2R m1 e <= F2R m2 e.
Proof.
  intros H. unfold F2R. apply Rmult_le_compat_r.
  - left. apply bpow_pos.
  - now apply IZR_le.
Qed.

Lemma F2R_succ m e : F2R (m + 1) e = F2R m e + bpow e.
Proof. unfold F2R. rewrite plus_IZR. ring. Qed.

(** Rounding to nearest, ties to even, is monotone at a fixed exponent. *)
Lemma rne_mono x y m1 l1 m2 l2 e :
  loc_ok x m1 e l1 -> loc_ok y m2 e l2 -> x <= y ->
  (round_nearest_even m1 l1 <= round_nearest_even m2 l2)%Z.
Proof.
  intros Hx Hy Hxy.
  pose proof (bpow_pos e) as He.
  destruct (Z.lt_trichotomy m1 m2) as [Hlt | [-> | Hgt]].
  - pose proof (rne_bounds m1 l1). pose proof (rne_bounds m2 l2). lia.
  - destruct l1 as [| []], l2 as [| []]; unfold loc_ok in *; simpl;
      destruct (Z.even m2); try lia; lra.
  - exfalso.
    apply loc_ok_bounds in Hx. apply loc_ok_bounds in Hy.
    pose proof (@F2R_le (m2 + 1) m1 e ltac:(lia)) as Hm.
    rewrite F2R_succ in Hm. lra.
Qed.

Lemma fexp_eq k : SpecFloat.fexp prec emax k = Z.max (k - 53) (-1074).
Proof. reflexivity. Qed.

(** The float that the last stage of rounding builds from the rounded
    mantissa [n] at the exponent [E]. *)
Definition FL (s : bool) (n E : Z) : spec_float :=
  match n with
  | Z0 => S754_zero s
  | Zpos p =>
      if (n <? 2 ^ 53)%Z then
        if (E <=? 971)%Z then S754_finite s p E else S754_infinity s
      else
        if (E + 1 <=? 971)%Z then S754_finite s 4503599627370496 (E + 1)
        else S754_infinity s
  | Zneg _ => S754_nan
  end.

Lemma shr_zero p :
  shr_m (Pos.iter shr_1 (Build_shr_record 0 false false) p) = 0%Z.
Proof.
  induction p using Pos.peano_ind.
  - reflexivity.
  - rewrite Pos.iter_succ.
    destruct (Pos.iter shr_1 _ p) as [m r t]. simpl in IHp. subst m.
    reflexivity.
Qed.

Lemma last_stage s n E :
  (0 <= n <= 2 ^ 53)%Z -> (-1074 <= E)%Z ->
  match shr_m (fst (shr_fexp prec emax n E loc_Exact)) with
  | Z0 => S754_zero s
  | Zpos p =>
      if (snd (shr_fexp prec emax n E loc_Exact) <=? emax - prec)%Z
      then S754_finite s p (snd (shr_fexp prec emax n E loc_Exact))
      else S754_infinity s
  | Zneg _ => S754_nan
  end = FL s n E.
Proof.
  intros Hn HE. unfold shr_fexp, FL.
  destruct n as [| p | p]; [| | lia].
  - unfold shr. cbn [shr_record_of_loc Zdigits2].
    destruct (SpecFloat.fexp prec emax (0 + E) - E)%Z; cbn [fst shr_m]; trivial.
    now rewrite iter_pos_iter, shr_zero.
  - cbn [Zdigits2 shr_record_of_loc].
    rewrite fexp_eq.
    destruct (digits2_bounds p) as [Hl Hu].
    set (d := Zpos (digits2_pos p)) in *.
    assert (Hd0 : (0 < d)%Z) by (unfold d; lia).
    destruct (Z.ltb_spec (Zpos p) (2 ^ 53)) as [Hlt | Hge].
    + assert (Hd : (d <= 53)%Z).
      { destruct (Z_le_gt_dec d 53) as [|Hgt]; trivial.
        assert (2 ^ 53 <= 2 ^ (d - 1))%Z by (apply Z.pow_le_mono_r; lia). lia. }
      unfold shr.
      destruct (Z.max (d + E - 53) (-1074) - E)%Z eqn:Es; try lia;
        cbn [fst snd shr_m]; reflexivity.
    + assert (Hp : Zpos p = (2 ^ 53)%Z) by lia.
      assert (Hd : d = 54%Z).
      { rewrite Hp in Hl, Hu.
        assert (d - 1 <= 53)%Z.
        { destruct (Z_le_gt_dec (d - 1) 53) as [|Hgt]; trivial.
          assert (2 ^ 54 <= 2 ^ (d - 1))%Z by (apply Z.pow_le_mono_r; lia).
          lia. }
        assert (53 < d)%Z.
        { destruct (Z_lt_le_dec 53 d) as [|Hle]; trivial.
          assert (2 ^ d <= 2 ^ 53)%Z by (apply Z.pow_le_mono_r; lia). lia. }
        lia. }
      rewrite Hd.
      replace (Z.max (54 + E - 53) (-1074) - E)%Z with 1%Z by lia.
      injection Hp as ->.
      reflexivity.
Qed.

(** What rounding computes, from a positive [x] located by [(m, e, l)]
    with enough digits: the nearest-even mantissa [n] of [x] at the
    exponent [E] of its binade. *)
Inductive rounded (x : R) (n E : Z) : Prop :=
| rounded_intro (k m : Z) (l : location) :
    E = SpecFloat.fexp prec emax k ->
    x < bpow k ->
    E = (-1074)%Z \/ bpow (k - 1) <= x ->
    loc_ok x m E l ->
    n = round_nearest_even m l ->
    (0 <= n <= 2 ^ 53)%Z ->
    ((-1074 < E)%Z -> (2 ^ 52 <= n)%Z) ->
    rounded x n E.

Lemma F2R_pow k E : (0 <= k)%Z -> F2R (2 ^ k) E = bpow (k + E).
Proof. intros Hk. unfold F2R. now rewrite bpow_add, (@bpow_IZR k). Qed.

Lemma F2R_lt_inv m1 m2 e : F2R m1 e < F2R m2 e -> (m1 < m2)%Z.
Proof.
  intros H. destruct (Z_lt_le_dec m1 m2) as [|Hle]; trivial.
  apply (@F2R_le m2 m1 e) in Hle. lra.
Qed.

Lemma round_aux_spec s x m e l :
  (0 <= m)%Z -> loc_ok x m e l ->
  (e <= SpecFloat.fexp prec emax (Zdigits2 m + e))%Z ->
  exists n E,
    binary_round_aux prec emax s m e l = FL s n E /\ rounded x n E.
Proof.
  intros Hm Hx HP.
  destruct (@shr_fexp_ok x m e l Hm Hx) as (Hm1 & HE & Hx1).
  unfold binary_round_aux.
  destruct (shr_fexp prec emax m e l) as [mrs E] eqn:Es1.
  cbn [fst snd] in Hm1, HE, Hx1.
  set (m1 := shr_m mrs) in *. set (l1 := loc_of_shr_record mrs) in *.
  set (n := round_nearest_even m1 l1).
  set (k := (Zdigits2 m + e)%Z) in *.
  assert (HEk : E = SpecFloat.fexp prec emax k) by lia.
  pose proof (fexp_eq k) as Hfk.
  pose proof (rne_bounds m1 l1) as Hn. fold n in Hn.
  pose proof (@loc_ok_bounds x m e l Hx) as Bx.
  pose proof (@loc_ok_bounds x m1 E l1 Hx1) as Bx1.
  (* the binade of x *)
  assert (Hup : x < bpow k /\ (E = (-1074)%Z \/ bpow (k - 1) <= x)).
  { destruct m as [| p | p]; [| | lia].
    - unfold k in *. cbn [Zdigits2] in *. rewrite Z.add_0_l in *.
      split.
      + unfold F2R in Bx. lra.
      + left. lia.
    - unfold k. cbn [Zdigits2].
      destruct (F2R_bounds p e) as [Bl Bu].
      rewrite F2R_succ in Bu. split; [lra | right; lra]. }
  destruct Hup as [Hup Hlow].
  assert (Hm53 : (m1 < 2 ^ 53)%Z).
  { apply (@F2R_lt_inv m1 (2 ^ 53) E). rewrite F2R_pow by lia.
    pose proof (@bpow_le k (53 + E) ltac:(lia)). lra. }
  assert (Hnorm : (-1074 < E)%Z -> (2 ^ 52 <= m1)%Z).
  { intros HE1. destruct Hlow as [Hlow | Hlow]; [lia |].
    assert (Hlt : (2 ^ 52 < m1 + 1)%Z).
    { apply (@F2R_lt_inv (2 ^ 52) (m1 + 1) E).
      rewrite F2R_pow, F2R_succ by lia.
      replace (52 + E)%Z with (k - 1)%Z by lia. lra. }
    lia. }
  exists n, E. split.
  - pose proof (@last_stage s n E ltac:(lia) ltac:(lia)) as Hlast.
    destruct (shr_fexp prec emax n E loc_Exact) as [mrs2 E2].
    exact Hlast.
  - apply (@rounded_intro x n E k m1 l1); trivial.
    + lia.
    + intros HE1. pose proof (Hnorm HE1). lia.
Qed.

Lemma leb_finite p1 e1 p2 e2 :
  (e1 < e2)%Z \/ (e1 = e2 /\ (Zpos p1 <= Zpos p2)%Z) ->
  SFleb (S754_finite false p1 e1) (S754_finite false p2 e2) = true.
Proof.
  intros H. unfold SFleb, SFcompare.
  change (Pos.compare_cont Eq p1 p2) with (Pos.compare p1 p2).
  destruct (Z.compare_spec e1 e2); try reflexivity; try lia.
  destruct (Pos.compare_spec p1 p2); try reflexivity; lia.
Qed.

(** The order of the floats built by the last stage. *)
Lemma FL_leb n1 E1 n2 E2 :
  (0 <= n1 <= 2 ^ 53)%Z -> (0 <= n2 <= 2 ^ 53)%Z ->
  (E1 <= E2)%Z ->
  (E1 = E2 -> (n1 <= n2)%Z) ->
  ((E1 < E2)%Z -> (2 ^ 52 <= n2)%Z) ->
  SFleb (FL false n1 E1) (FL false n2 E2) = true.
Proof.
  change (2 ^ 53)%Z with 9007199254740992%Z.
  change (2 ^ 52)%Z with 4503599627370496%Z.
  intros H1 H2 HE Heq Hlt.
  assert (Hcmp : (E1 < E2 /\ 4503599627370496 <= n2)%Z \/
                 (E1 = E2 /\ n1 <= n2)%Z).
  { destruct (Z.eq_dec E1 E2) as [Ee | Ne].
    - right. split; [exact Ee | exact (Heq Ee)].
    - left. assert (Hl : (E1 < E2)%Z) by lia. split; [exact Hl | exact (Hlt Hl)]. }
  clear Heq Hlt.
  unfold FL. change (2 ^ 53)%Z with 9007199254740992%Z.
  destruct n1 as [| p1 | p1]; [| | lia]; destruct n2 as [| p2 | p2]; try lia.
  - reflexivity.
  - destruct (Z.pos p2 <? 9007199254740992)%Z;
      [destruct (E2 <=? 971)%Z | destruct (E2 + 1 <=? 971)%Z]; reflexivity.
  - destruct (Z.ltb_spec (Z.pos p1) 9007199254740992) as [A1 | A1];
      [destruct (Z.leb_spec E1 971) as [B1 | B1] |
       destruct (Z.leb_spec (E1 + 1) 971) as [B1 | B1]];
      (destruct (Z.ltb_spec (Z.pos p2) 9007199254740992) as [A2 | A2];
       [destruct (Z.leb_spec E2 971) as [B2 | B2] |
        destruct (Z.leb_spec (E2 + 1) 971) as [B2 | B2]]);
      try reflexivity; try (exfalso; lia);
      apply leb_finite; lia.
Qed.

Lemma rounded_leb x y n1 E1 n2 E2 :
  rounded x n1 E1 -> rounded y n2 E2 -> x <= y ->
  SFleb (FL false n1 E1) (FL false n2 E2) = true.
Proof.
  intros [k1 m1 l1 HE1 Hu1 Hl1 Hx1 Hn1 Hr1 Hnorm1]
         [k2 m2 l2 HE2 Hu2 Hl2 Hx2 Hn2 Hr2 Hnorm2] Hxy.
  rewrite fexp_eq in HE1, HE2.
  assert (HE : (E1 <= E2)%Z).
  { destruct Hl1 as [Hl1 | Hl1]; [lia |].
    assert (k1 - 1 < k2)%Z by (apply bpow_lt_inv; lra). lia. }
  apply FL_leb; trivial.
  - intros ->. subst n1 n2. now apply (@rne_mono x y m1 l1 m2 l2 E2).
  - intros Hlt. apply Hnorm2. lia.
Qed.

(** Rounding is monotone: of two positive numbers located with enough
    digits, the smaller rounds to the smaller float. *)
Lemma round_aux_mono x y m1 e1 l1 m2 e2 l2 :
  (0 <= m1)%Z -> loc_ok x m1 e1 l1 ->
  (e1 <= SpecFloat.fexp prec emax (Zdigits2 m1 + e1))%Z ->
  (0 <= m2)%Z -> loc_ok y m2 e2 l2 ->
  (e2 <= SpecFloat.fexp prec emax (Zdigits2 m2 + e2))%Z ->
  x <= y ->
  SFleb (binary_round_aux prec emax false m1 e1 l1)
        (binary_round_aux prec emax false m2 e2 l2) = true.
Proof.
  intros Hm1 Hx HP1 Hm2 Hy HP2 Hxy.
  destruct (@round_aux_spec false x m1 e1 l1 Hm1 Hx HP1) as (n1 & E1 & -> & R1).
  destruct (@round_aux_spec false y m2 e2 l2 Hm2 Hy HP2) as (n2 & E2 & -> & R2).
  now apply (@rounded_leb x y).
Qed.

(** *** Sums: rounding an integer multiple of a power of two *)

Lemma iter_xO_Z d : forall m,
  Zpos (Pos.iter xO m d) = (Zpos m * 2 ^ Zpos d)%Z.
Proof.
  induction d using Pos.peano_ind; intros m.
  - simpl Pos.iter. rewrite Pos2Z.inj_xO. lia.
  - rewrite Pos.iter_succ, Pos2Z.inj_xO, IHd, Pos2Z.inj_succ.
    rewrite Z.pow_succ_r by lia. ring.
Qed.

Lemma shl_align_ok (mx : positive) (ex : Z) :
  let mz := fst (shl_align mx ex (SpecFloat.fexp prec emax (Zpos (digits2_pos mx) + ex))) in
  let ez := snd (shl_align mx ex (SpecFloat.fexp prec emax (Zpos (digits2_pos mx) + ex))) in
  F2R (Zpos mz) ez = F2R (Zpos mx) ex /\
  (ez <= SpecFloat.fexp prec emax (Zdigits2 (Zpos mz) + ez))%Z.
Proof.
  unfold shl_align.
  set (f := SpecFloat.fexp prec emax (Zpos (digits2_pos mx) + ex)).
  destruct (f - ex)%Z as [| d | d] eqn:Ed; cbn [fst snd Zdigits2].
  - split; [reflexivity | fold f; lia].
  - split; [reflexivity | fold f; lia].
  - split.
    + unfold F2R. rewrite iter_xO_Z, mult_IZR.
      rewrite <- (@bpow_IZR (Zpos d)) by lia.
      assert (Hex : bpow ex = bpow (Zpos d) * bpow f).
      { rewrite <- bpow_add. f_equal. lia. }
      rewrite Hex. ring.
    + rewrite digits2_iter.
      replace (Zpos (digits2_pos mx) + Zpos d + f)%Z
        with (Zpos (digits2_pos mx) + ex)%Z by lia.
      fold f. lia.
Qed.

Lemma binary_round_mono (m1 : positive) (e1 : Z) (m2 : positive) (e2 : Z) :
  F2R (Zpos m1) e1 <= F2R (Zpos m2) e2 ->
  SFleb (binary_round prec emax false m1 e1)
        (binary_round prec emax false m2 e2) = true.
Proof.
  intros Hle. unfold binary_round.
  destruct (shl_align_ok m1 e1) as [V1 P1].
  destruct (shl_align_ok m2 e2) as [V2 P2].
  destruct (shl_align m1 e1 _) as [mz1 ez1].
  destruct (shl_align m2 e2 _) as [mz2 ez2].
  cbn [fst snd] in *.
  apply (@round_aux_mono (F2R (Zpos m1) e1) (F2R (Zpos m2) e2));
    trivial; try lia; unfold loc_ok; congruence.
Qed.

(** The floats of one sign: zero, finite or infinite, not NaN. *)
Definition in_class (s : bool) (f : spec_float) : Prop :=
  match f with
  | S754_zero s' | S754_infinity s' | S754_finite s' _ _ => s' = s
  | S754_nan => False
  end.

Lemma FL_class s n E : (0 <= n)%Z -> in_class s (FL s n E).
Proof.
  intros Hn. unfold FL. destruct n as [| p | p]; [reflexivity | | lia].
  destruct (Z.pos p <? 2 ^ 53)%Z;
    [destruct (E <=? 971)%Z | destruct (E + 1 <=? 971)%Z]; reflexivity.
Qed.

Lemma binary_round_class s (m : positive) (e : Z) :
  in_class s (binary_round prec emax s m e).
Proof.
  unfold binary_round.
  destruct (shl_align_ok m e) as [V P].
  destruct (shl_align m e _) as [mz ez]. cbn [fst snd] in *.
  destruct (@round_aux_spec s (F2R (Zpos mz) ez) (Zpos mz) ez loc_Exact)
    as (n & E & -> & [k m1 l1 _ _ _ _ _ Hr _]); try lia; try reflexivity.
  apply FL_class. lia.
Qed.

Lemma leb_class f g : in_class true f -> in_class false g -> SFleb f g = true.
Proof.
  destruct f as [s | s | | s m e], g as [t | t | | t m' e'];
    simpl; intros Hf Hg; subst; try contradiction; reflexivity.
Qed.

Lemma SFcompare_opp a b :
  SFcompare (SFopp a) (SFopp b) = SFcompare b a.
Proof.
  destruct a as [s | s | | s m e], b as [t | t | | t m' e'];
    simpl; try reflexivity;
    try (destruct s; reflexivity); try (destruct t; reflexivity);
    try (destruct s, t; reflexivity).
  change (Pos.compare_cont Eq m m') with (Pos.compare m m').
  change (Pos.compare_cont Eq m' m) with (Pos.compare m' m).
  rewrite (Z.compare_antisym e e'), (Pos.compare_antisym m m').
  destruct s, t, (e ?= e')%Z, (m ?= m')%positive; reflexivity.
Qed.

Lemma SFleb_opp a b : SFleb (SFopp a) (SFopp b) = SFleb b a.
Proof. unfold SFleb. now rewrite SFcompare_opp. Qed.

Lemma binary_round_neg (m : positive) (e : Z) :
  binary_round prec emax true m e = SFopp (binary_round prec emax false m e).
Proof.
  unfold binary_round. destruct (shl_align m e _) as [mz ez].
  apply (@round_aux_opp false).
Qed.

(** Rounding an integer multiple of [2^e] is monotone in the integer. *)
Lemma normalize_mono (M1 M2 e : Z) :
  (M1 <= M2)%Z ->
  SFleb (binary_normalize prec emax M1 e false)
        (binary_normalize prec emax M2 e false) = true.
Proof.
  intros HM.
  destruct M1 as [| p1 | p1], M2 as [| p2 | p2]; try lia;
    cbn [binary_normalize].
  - reflexivity.
  - pose proof (binary_round_class false p2 e) as Hc.
    destruct (binary_round prec emax false p2 e); simpl in Hc; subst;
      (contradiction || reflexivity).
  - apply binary_round_mono. apply F2R_le. lia.
  - pose proof (binary_round_class true p1 e) as Hc.
    destruct (binary_round prec emax true p1 e); simpl in Hc; subst;
      (contradiction || reflexivity).
  - apply leb_class; apply binary_round_class.
  - rewrite !binary_round_neg, SFleb_opp.
    apply binary_round_mono. apply F2R_le. lia.
Qed.

Lemma SFleb_refl x : x <> S754_nan -> SFleb x x = true.
Proof.
  destruct x as [s | s | | s m e]; intros Hx; try congruence;
    unfold SFleb, SFcompare; try (destruct s; reflexivity).
  change (Pos.compare_cont Eq m m) with (Pos.compare m m).
  rewrite Z.compare_refl, Pos.compare_refl. destruct s; reflexivity.
Qed.

(** Zero of either sign, a positive number, or plus infinity. *)
Definition nonneg_float (x : spec_float) : Prop :=
  match x with
  | S754_zero _ | S754_infinity false | S754_finite false _ _ => True
  | _ => False
  end.

(** Subtracting a non-negative float gives less than adding it. *)
Lemma sub_leb_add (B S : spec_float) :
  nonneg_float S ->
  SF64sub B S <> S754_nan -> SF64add B S <> S754_nan ->
  SFleb (SF64sub B S) (SF64add B S) = true.
Proof.
  unfold SF64sub, SF64add.
  destruct B as [sb | sb | | sb mb eb], S as [ss | ss | | ss ms es];
    try (destruct ss); try (destruct sb);
    cbn [nonneg_float SFsub SFadd negb]; intros HS H1 H2;
    try contradiction; try congruence; try reflexivity;
    try (apply SFleb_refl; congruence).
  - cbn [cond_Zopp]. apply normalize_mono. lia.
  - cbn [cond_Zopp]. apply normalize_mono. lia.
Qed.

(** *** Quotients *)

Lemma new_location_ok (m2 r : Z) (w : R) :
  (0 < m2)%Z -> (0 <= r < m2)%Z -> 0 < w ->
  match new_location m2 r with
  | loc_Exact => r = 0%Z
  | loc_Inexact Lt => 0 < IZR r * w < IZR m2 * w / 2
  | loc_Inexact Eq => IZR r * w = IZR m2 * w / 2
  | loc_Inexact Gt => IZR m2 * w / 2 < IZR r * w < IZR m2 * w
  end.
Proof.
  intros Hm Hr Hw.
  assert (Hr0 : (r = 0 \/ 0 < r)%Z) by lia.
  assert (Hrm : IZR r < IZR m2) by (apply IZR_lt; lia).
  assert (Hpos : (0 < r)%Z -> 0 < IZR r) by (intros; now apply IZR_lt).
  unfold new_location, new_location_even, new_location_odd.
  destruct (Z.even m2) eqn:Ev.
  - destruct (Z.eqb_spec r 0) as [-> | Hne]; [reflexivity |].
    destruct (Z.compare_spec (2 * r) m2) as [Hc | Hc | Hc].
    + apply (f_equal IZR) in Hc. rewrite mult_IZR in Hc. nra.
    + apply IZR_lt in Hc. rewrite mult_IZR in Hc.
      assert (0 < IZR r) by (apply Hpos; lia). nra.
    + apply IZR_lt in Hc. rewrite mult_IZR in Hc. nra.
  - destruct (Z.eqb_spec r 0) as [-> | Hne]; [reflexivity |].
    assert (Hodd : Z.odd m2 = true) by (rewrite <- Z.negb_even, Ev; reflexivity).
    apply Z.odd_spec in Hodd. destruct Hodd as [k Hk].
    destruct (Z.compare_spec (2 * r + 1) m2) as [Hc | Hc | Hc].
    + assert (Hlt : (2 * r < m2)%Z) by lia.
      apply IZR_lt in Hlt. rewrite mult_IZR in Hlt.
      assert (0 < IZR r) by (apply Hpos; lia). nra.
    + assert (Hlt : (2 * r < m2)%Z) by lia.
      apply IZR_lt in Hlt. rewrite mult_IZR in Hlt.
      assert (0 < IZR r) by (apply Hpos; lia). nra.
    + assert (Hlt : (m2 < 2 * r)%Z) by lia.
      apply IZR_lt in Hlt. rewrite mult_IZR in Hlt. nra.
Qed.

Lemma Zdigits2_nonneg m : (0 <= Zdigits2 m)%Z.
Proof. destruct m; simpl; lia. Qed.

Lemma Zdigits2_lower q j : (0 <= j)%Z -> (2 ^ j <= q)%Z -> (j < Zdigits2 q)%Z.
Proof.
  intros Hj Hq.
  assert (Hq0 : (0 < q)%Z) by (pose proof (Z.pow_pos_nonneg 2 j); lia).
  destruct q as [| p | p]; try lia. cbn [Zdigits2].
  destruct (digits2_bounds p) as [_ Hu].
  destruct (Z_lt_le_dec j (Zpos (digits2_pos p))) as [| Hle]; trivial.
  assert (2 ^ Zpos (digits2_pos p) <= 2 ^ j)%Z by (apply Z.pow_le_mono_r; lia).
  lia.
Qed.

(** The quotient of two positive mantissas, as [SFdiv] computes it before
    rounding, locates the exact quotient, with enough digits. *)
Lemma div_core_ok (p1 : positive) (e1 : Z) (p2 : positive) (e2 : Z) :
  let q := fst (fst (SFdiv_core_binary prec emax (Zpos p1) e1 (Zpos p2) e2)) in
  let e' := snd (fst (SFdiv_core_binary prec emax (Zpos p1) e1 (Zpos p2) e2)) in
  let l := snd (SFdiv_core_binary prec emax (Zpos p1) e1 (Zpos p2) e2) in
  (0 <= q)%Z /\
  loc_ok (F2R (Zpos p1) e1 / F2R (Zpos p2) e2) q e' l /\
  (e' <= SpecFloat.fexp prec emax (Zdigits2 q + e'))%Z.
Proof.
  unfold SFdiv_core_binary. cbn [Zdigits2].
  set (d1 := Zpos (digits2_pos p1)). set (d2 := Zpos (digits2_pos p2)).
  set (D := (d1 + e1 - (d2 + e2))%Z).
  set (e' := Z.min (SpecFloat.fexp prec emax D) (e1 - e2)).
  set (s := (e1 - e2 - e')%Z).
  assert (Hs : (0 <= s)%Z) by (unfold s, e'; lia).
  set (m' := match s with
             | 0%Z => Zpos p1
             | Zpos _ => Z.shiftl (Zpos p1) s
             | Zneg _ => 0%Z
             end).
  assert (Hm' : m' = (Zpos p1 * 2 ^ s)%Z).
  { unfold m'. destruct s as [| ps | ps] eqn:Es; try lia.
    now rewrite Z.shiftl_mul_pow2 by lia. }
  clearbody m'.
  pose proof (Z_div_mod m' (Zpos p2) ltac:(lia)) as Hdiv.
  destruct (Z.div_eucl m' (Zpos p2)) as [q r]. cbn [fst snd].
  destruct Hdiv as [Hqr Hr].
  assert (Hpow : (0 < 2 ^ s)%Z) by (apply Z.pow_pos_nonneg; lia).
  assert (Hq : (0 <= q)%Z) by nia.
  split; [exact Hq |]. split.
  - (* the place of the exact quotient *)
    pose proof (bpow_pos e') as Hu. pose proof (bpow_pos e2) as Hu2.
    assert (Hp2 : 0 < IZR (Zpos p2)) by (apply IZR_lt; lia).
    set (w := bpow e' / IZR (Zpos p2)).
    assert (Hw : 0 < w) by (unfold w; apply Rdiv_lt_0_compat; trivial).
    assert (Hx : F2R (Zpos p1) e1 / F2R (Zpos p2) e2 = F2R q e' + IZR r * w).
    { assert (HB : bpow e1 = bpow s * bpow e' * bpow e2).
      { rewrite <- !bpow_add. f_equal. unfold s. lia. }
      assert (HA : IZR (Zpos p1) * bpow s = IZR (Zpos p2) * IZR q + IZR r).
      { rewrite (@bpow_IZR s) by lia.
        rewrite <- !mult_IZR, <- plus_IZR. f_equal. lia. }
      unfold F2R, w. rewrite HB.
      replace (IZR (Zpos p1) * (bpow s * bpow e' * bpow e2))
        with ((IZR (Zpos p2) * IZR q + IZR r) * bpow e' * bpow e2)
        by (rewrite <- HA; ring).
      field. split; lra. }
    assert (Hstep : bpow e' = IZR (Zpos p2) * w).
    { unfold w. field. lra. }
    pose proof (@new_location_ok (Zpos p2) r w ltac:(lia) Hr Hw) as Hloc.
    rewrite Hx. unfold loc_ok.
    destruct (new_location (Zpos p2) r) as [| []]; rewrite ?Hstep.
    + subst r. simpl. lra.
    + lra.
    + lra.
    + lra.
  - (* enough digits *)
    assert (Hdq : (d1 - d2 + s <= Zdigits2 q)%Z).
    { destruct (Z_lt_le_dec (d1 - 1 + s - d2) 0) as [Hneg | Hnn].
      - pose proof (Zdigits2_nonneg q). lia.
      - assert (Hj : (2 ^ (d1 - 1 + s - d2) <= q)%Z).
        { destruct (digits2_bounds p1) as [Hl1 _].
          destruct (digits2_bounds p2) as [_ Hu2].
          fold d1 in Hl1. fold d2 in Hu2.
          assert (Hd2 : (0 < d2)%Z) by (unfold d2; lia).
          assert (Hd1 : (0 < d1)%Z) by (unfold d1; lia).
          set (j := (d1 - 1 + s - d2)%Z) in *.
          assert (Hsplit : (2 ^ (d1 - 1) * 2 ^ s = 2 ^ j * 2 ^ d2)%Z).
          { rewrite <- !Z.pow_add_r by lia. f_equal. unfold j. lia. }
          assert (Hj0 : (0 < 2 ^ j)%Z) by (apply Z.pow_pos_nonneg; lia).
          destruct (Z_le_gt_dec (2 ^ j) q) as [| Hgt]; trivial.
          exfalso.
          assert (H1 : (2 ^ j * 2 ^ d2 <= m')%Z).
          { rewrite <- Hsplit, Hm'. apply Z.mul_le_mono_nonneg_r; lia. }
          assert (H2 : (Zpos p2 * (q + 1) <= Zpos p2 * 2 ^ j)%Z).
          { apply Z.mul_le_mono_nonneg_l; lia. }
          assert (H3 : (Zpos p2 * 2 ^ j < 2 ^ d2 * 2 ^ j)%Z).
          { apply Z.mul_lt_mono_pos_r; lia. }
          lia. }
        pose proof (@Zdigits2_lower q (d1 - 1 + s - d2) Hnn Hj). lia. }
    assert (HD : (D <= Zdigits2 q + e')%Z) by (unfold D, s in *; lia).
    rewrite fexp_eq. unfold e' in *. rewrite fexp_eq in *. lia.
Qed.

(** The order of two positive floats of the format is that of their
    values. *)
Lemma leb_F2R (m1 : positive) (e1 : Z) (m2 : positive) (e2 : Z) :
  canonical_mantissa prec emax m1 e1 = true ->
  canonical_mantissa prec emax m2 e2 = true ->
  SFleb (S754_finite false m1 e1) (S754_finite false m2 e2) = true ->
  F2R (Zpos m1) e1 <= F2R (Zpos m2) e2.
Proof.
  unfold canonical_mantissa. rewrite !fexp_eq.
  intros C1 C2. apply Z.eqb_eq in C1, C2.
  unfold SFleb, SFcompare.
  change (Pos.compare_cont Eq m1 m2) with (Pos.compare m1 m2).
  destruct (Z.compare_spec e1 e2) as [-> | Hlt | Hgt].
  - destruct (Pos.compare_spec m1 m2) as [-> | Hm | Hm];
      intros H; try discriminate.
    + lra.
    + apply F2R_le. lia.
  - intros _.
    destruct (F2R_bounds m1 e1) as [_ Hu].
    destruct (F2R_bounds m2 e2) as [Hl _].
    rewrite F2R_succ in Hu. pose proof (bpow_pos e1).
    pose proof (@bpow_le (Zpos (digits2_pos m1) + e1)
                         (Zpos (digits2_pos m2) + e2 - 1) ltac:(lia)).
    lra.
  - discriminate.
Qed.

Lemma F2R_pos (m : positive) (e : Z) : 0 < F2R (Zpos m) e.
Proof.
  unfold F2R. apply Rmult_lt_0_compat; [apply IZR_lt; lia | apply bpow_pos].
Qed.

(** Dividing two positive floats by the same positive float keeps their
    order. *)
Lemma div_mono_pos (mu : positive) (eu : Z) (mv : positive) (ev : Z)
    (mt : positive) (et : Z) :
  canonical_mantissa prec emax mu eu = true ->
  canonical_mantissa prec emax mv ev = true ->
  SFleb (S754_finite false mu eu) (S754_finite false mv ev) = true ->
  SFleb (SF64div (S754_finite false mu eu) (S754_finite false mt et))
        (SF64div (S754_finite false mv ev) (S754_finite false mt et)) = true.
Proof.
  intros Cu Cv Hle.
  pose proof (@leb_F2R mu eu mv ev Cu Cv Hle) as Hval.
  unfold SF64div, SFdiv. cbn [xorb].
  destruct (div_core_ok mu eu mt et) as (Hq1 & Hl1 & HP1).
  destruct (div_core_ok mv ev mt et) as (Hq2 & Hl2 & HP2).
  destruct (SFdiv_core_binary prec emax (Zpos mu) eu (Zpos mt) et) as [[q1 e1] l1].
  destruct (SFdiv_core_binary prec emax (Zpos mv) ev (Zpos mt) et) as [[q2 e2] l2].
  cbn [fst snd] in *.
  apply (@round_aux_mono (F2R (Zpos mu) eu / F2R (Zpos mt) et)
                         (F2R (Zpos mv) ev / F2R (Zpos mt) et)); trivial.
  pose proof (F2R_pos mt et) as Ht.
  unfold Rdiv. apply Rmult_le_compat_r; [| exact Hval].
  left. now apply Rinv_0_lt_compat.
Qed.

Lemma div_class (s : bool) (U : spec_float) (mt : positive) (et : Z) :
  in_class s U -> in_class s (SF64div U (S754_finite false mt et)).
Proof.
  destruct U as [su | su | | su mu eu]; cbn [in_class]; intros Hs; subst;
    unfold SF64div, SFdiv; try (destruct s; reflexivity); try contradiction.
  destruct (div_core_ok mu eu mt et) as (Hq & Hl & HP).
  destruct (SFdiv_core_binary prec emax (Zpos mu) eu (Zpos mt) et) as [[q e] l].
  cbn [fst snd] in *.
  destruct (@round_aux_spec (xorb s false) _ q e l Hq Hl HP)
    as (n & E & -> & [k m1 l1 _ _ _ _ _ Hr _]).
  replace (xorb s false) with s by (destruct s; reflexivity).
  apply FL_class. lia.
Qed.

Lemma zero_leb_class g : in_class false g -> SFleb (S754_zero false) g = true.
Proof.
  destruct g as [s | s | | s m e]; cbn [in_class]; intros Hg; subst;
    (contradiction || reflexivity).
Qed.

Lemma class_leb_inf g : in_class false g -> SFleb g (S754_infinity false) = true.
Proof.
  destruct g as [s | s | | s m e]; cbn [in_class]; intros Hg; subst;
    (contradiction || reflexivity).
Qed.

Lemma in_class_opp s U : in_class s U -> in_class (negb s) (SFopp U).
Proof.
  destruct U; cbn [in_class SFopp]; intros H; subst; trivial.
Qed.

Lemma valid_opp U : valid_binary (SFopp U) = valid_binary U.
Proof. now destruct U. Qed.

Lemma div_leb_pos (U V : spec_float) (mt : positive) (et : Z) :
  in_class false U -> in_class false V ->
  valid_binary U = true -> valid_binary V = true ->
  SFleb U V = true ->
  SFleb (SF64div U (S754_finite false mt et))
        (SF64div V (S754_finite false mt et)) = true.
Proof.
  intros CU CV VU VV Hle.
  pose proof (@div_class false V mt et CV) as DV.
  pose proof (@div_class false U mt et CU) as DU.
  destruct U as [su | su | | su mu eu]; cbn [in_class] in CU; subst;
    try contradiction.
  - now apply zero_leb_class.
  - destruct V as [sv | sv | | sv mv ev]; cbn [in_class] in CV; subst;
      try contradiction; try discriminate Hle. reflexivity.
  - destruct V as [sv | sv | | sv mv ev]; cbn [in_class] in CV; subst;
      try contradiction; try discriminate Hle.
    + now apply class_leb_inf.
    + cbn [valid_binary] in VU, VV. unfold bounded in VU, VV.
      apply andb_prop in VU, VV.
      now apply div_mono_pos.
Qed.

(** Division by a positive float is monotone in the numerator. *)
Lemma div_leb (U V T : spec_float) :
  valid_binary U = true -> valid_binary V = true ->
  in_class false T -> T <> S754_zero false ->
  SFleb U V = true ->
  SF64div U T <> S754_nan -> SF64div V T <> S754_nan ->
  SFleb (SF64div U T) (SF64div V T) = true.
Proof.
  intros VU VV CT TZ Hle NU NV.
  destruct T as [st | st | | st mt et]; cbn [in_class] in CT; subst;
    try contradiction; try congruence.
  - (* an infinite divisor: the quotients are zeros *)
    destruct U as [su | su | | su mu eu], V as [sv | sv | | sv mv ev];
      cbn in NU, NV |- *; try congruence; reflexivity.
  - assert (HU : in_class false U \/ in_class true U).
    { destruct U as [[] | [] | | [] ? ?]; cbn; try discriminate Hle; auto. }
    assert (HV : in_class false V \/ in_class true V).
    { destruct V as [[] | [] | | [] ? ?]; cbn; auto;
        destruct U; discriminate Hle. }
    destruct HU as [CU | CU], HV as [CV | CV].
    + now apply div_leb_pos.
    + (* only two zeros are in this order *)
      destruct U as [su | su | | su mu eu], V as [sv | sv | | sv mv ev];
        cbn [in_class] in CU, CV; subst; try contradiction;
        try discriminate Hle. reflexivity.
    + apply leb_class; now apply div_class.
    + rewrite <- (SFleb_opp (SF64div V (S754_finite false mt et))
                            (SF64div U (S754_finite false mt et))).
      rewrite <- !SFdiv_opp_l.
      apply div_leb_pos.
      * now apply (@in_class_opp true).
      * now apply (@in_class_opp true).
      * now rewrite valid_opp.
      * now rewrite valid_opp.
      * now rewrite SFleb_opp.
Qed.

(** *** Square roots and the sign of what rounding returns *)

Lemma loc_witness (m e : Z) (l : location) : exists x, loc_ok x m e l.
Proof.
  pose proof (bpow_pos e).
  destruct l as [| []]; unfold loc_ok.
  - now exists (F2R m e).
  - exists (F2R m e + bpow e / 2). lra.
  - exists (F2R m e + bpow e / 4). lra.
  - exists (F2R m e + 3 * bpow e / 4). lra.
Qed.

Lemma round_aux_class s m e l :
  (0 <= m)%Z -> in_class s (binary_round_aux prec emax s m e l).
Proof.
  intros Hm. destruct (loc_witness m e l) as [x Hx].
  destruct (@shr_fexp_ok x m e l Hm Hx) as (Hm1 & _ & _).
  unfold binary_round_aux.
  destruct (shr_fexp prec emax m e l) as [mrs E]. cbn [fst] in Hm1.
  pose proof (rne_bounds (shr_m mrs) (loc_of_shr_record mrs)) as Hn.
  set (n := round_nearest_even (shr_m mrs) (loc_of_shr_record mrs)) in *.
  destruct (@shr_fexp_ok (F2R n E) n E loc_Exact ltac:(lia) eq_refl)
    as (Hm2 & _ & _).
  destruct (shr_fexp prec emax n E loc_Exact) as [mrs2 E2]. cbn [fst] in Hm2.
  destruct (shr_m mrs2) as [| p | p]; try lia; try reflexivity.
  destruct (E2 <=? emax - prec)%Z; reflexivity.
Qed.

Lemma sqrt_class (X : spec_float) :
  SF64sqrt X = S754_nan \/ nonneg_float (SF64sqrt X).
Proof.
  destruct X as [s | [] | | [] m e]; cbn; auto.
  right. unfold SFsqrt_core_binary.
  set (e' := Z.min _ _). set (sh := (e - 2 * e')%Z).
  set (m' := match sh with
             | 0%Z => Zpos m
             | Zpos _ => Z.shiftl (Zpos m) sh
             | Zneg _ => 0%Z
             end).
  assert (Hm' : (0 <= m')%Z).
  { unfold m'. destruct sh; try lia. apply Z.shiftl_nonneg. lia. }
  pose proof (Z.sqrtrem_spec m' Hm') as Hs.
  destruct (Z.sqrtrem m') as [q r].
  assert (Hq : (0 <= q)%Z) by lia.
  set (l := if (r =? 0)%Z then loc_Exact else
            loc_Inexact (if (r <=? q)%Z then Lt else Gt)).
  pose proof (@round_aux_class false q e' l Hq) as Hc.
  destruct (binary_round_aux prec emax false q e' l); cbn in Hc |- *;
    subst; trivial.
Qed.
End Semantics.

(** *** The order of the roots *)

Section RootOrder.
Open Scope float_scope.

Lemma is_nan_false (x : float) : Prim2SF x <> S754_nan -> is_nan x = false.
Proof.
  unfold is_nan. rewrite eqb_spec.
  destruct (Prim2SF x) as [[] | [] | | [] m e]; try reflexivity.
  - congruence.
  - intros _. unfold SFeqb, SFcompare. rewrite Z.compare_refl, Pos.compare_cont_refl.
    reflexivity.
  - intros _. unfold SFeqb, SFcompare. rewrite Z.compare_refl.
    rewrite Pos.compare_cont_refl. reflexivity.
Qed.

Lemma not_nan_spec (x : float) : x <> nan -> Prim2SF x <> S754_nan.
Proof. intros H E. apply H. now apply nan_of_spec. Qed.

Lemma positive_class (a : float) : (0 <? a) = true -> in_class false (Prim2SF a).
Proof.
  rewrite ltb_spec, Prim2SF_0.
  destruct (Prim2SF a) as [s | [] | | [] m e]; try discriminate; reflexivity.
Qed.

Lemma negative_class (a : float) : (a <? 0) = true -> in_class true (Prim2SF a).
Proof.
  rewrite ltb_spec, Prim2SF_0.
  destruct (Prim2SF a) as [s | [] | | [] m e]; try discriminate; reflexivity.
Qed.

Lemma class_is_nan s (a : float) : in_class s (Prim2SF a) -> is_nan a = false.
Proof.
  intros H. apply is_nan_false. intros E. now rewrite E in H.
Qed.

Lemma two_times_class s (a : float) :
  in_class s (Prim2SF a) -> in_class s (Prim2SF (2 * a)).
Proof.
  rewrite mul_spec, Prim2SF_2.
  destruct (Prim2SF a) as [s' | s' | | s' m e]; cbn [in_class]; try tauto;
    intros ->; try reflexivity.
  unfold SF64mul, SFmul. cbn [xorb].
  apply round_aux_class. lia.
Qed.

Lemma two_times_nonzero s (a : float) :
  is_nan a = false -> (abs a <? DBL_EPSILON) = false ->
  Prim2SF (2 * a) <> S754_zero s.
Proof.
  intros Hn Hlt E.
  assert (Hge : (0x1p-52 <=? abs a) = true).
  { apply not_ltb_leb; trivial. now rewrite is_nan_abs. }
  apply mul_2_ge in Hge. rewrite leb_spec, abs_spec, E, Prim2SF_eps in Hge.
  discriminate Hge.
Qed.

Lemma sum_parts (nb s t : float) :
  is_nan ((nb - s) / t) = false -> is_nan ((nb + s) / t) = false ->
  Prim2SF s <> S754_nan /\
  Prim2SF (nb - s) <> S754_nan /\ Prim2SF (nb + s) <> S754_nan.
Proof.
  intros H1 H2. repeat split; intros E; apply nan_of_spec in E.
  - rewrite E, sub_nan_r, div_nan_l in H1. discriminate H1.
  - rewrite E, div_nan_l in H1. discriminate H1.
  - rewrite E, div_nan_l in H2. discriminate H2.
Qed.

Lemma numerators_leb (nb d : float) :
  Prim2SF (PrimFloat.sqrt d) <> S754_nan ->
  Prim2SF (nb - PrimFloat.sqrt d) <> S754_nan -> Prim2SF (nb + PrimFloat.sqrt d) <> S754_nan ->
  SFleb (Prim2SF (nb - PrimFloat.sqrt d)) (Prim2SF (nb + PrimFloat.sqrt d)) = true.
Proof.
  rewrite sub_spec, add_spec, sqrt_spec. intros Hs Hu Hv.
  apply sub_leb_add; trivial.
  destruct (sqrt_class (Prim2SF d)) as [E | Hc]; [contradiction | exact Hc].
Qed.

Lemma quotients_leb (u v t : float) :
  in_class false (Prim2SF t) -> Prim2SF t <> S754_zero false ->
  SFleb (Prim2SF u) (Prim2SF v) = true ->
  is_nan (u / t) = false -> is_nan (v / t) = false ->
  (u / t <=? v / t) = true.
Proof.
  intros Hc Hz Hle H1 H2. apply is_nan_spec in H1, H2.
  rewrite leb_spec. rewrite div_spec in H1, H2 |- *. rewrite div_spec.
  apply div_leb; trivial; apply Prim2SF_valid.
Qed.

Lemma SFopp_involutive (x : spec_float) : SFopp (SFopp x) = x.
Proof. destruct x; simpl; now rewrite ?negb_involutive. Qed.

Lemma quotients_leb_neg (u v t : float) :
  in_class true (Prim2SF t) -> Prim2SF t <> S754_zero true ->
  SFleb (Prim2SF u) (Prim2SF v) = true ->
  is_nan (u / t) = false -> is_nan (v / t) = false ->
  (v / t <=? u / t) = true.
Proof.
  intros Hc Hz Hle H1 H2. apply is_nan_spec in H1, H2.
  rewrite leb_spec. rewrite div_spec in H1, H2 |- *. rewrite div_spec.
  set (T := Prim2SF t) in *.
  assert (Hq : forall U, SF64div U T = SFopp (SF64div U (SFopp T))).
  { intros U. now rewrite <- SFdiv_opp_r, SFopp_involutive. }
  rewrite (Hq (Prim2SF u)), (Hq (Prim2SF v)) in *. rewrite SFleb_opp.
  apply div_leb; trivial; try apply Prim2SF_valid.
  - apply (@in_class_opp true T Hc).
  - intros E. apply Hz. rewrite <- (SFopp_involutive T), E. reflexivity.
  - intros E. apply H1. now rewrite E.
  - intros E. apply H2. now rewrite E.
Qed.

(** X13. The order of the two roots in the code's own arithmetic.  When
    [solve_square] stores two roots and neither is NaN, the first is not
    above the second for a positive leading coefficient, and the second is
    not above the first for a negative one: rounding in the subtraction,
    the addition and the two divisions never swaps them. *)
Theorem roots_order_binary64 (a b c r1 r2 : float) :
  solve a b c = TwoRoots r1 r2 ->
  is_nan r1 = false -> is_nan r2 = false ->
  ((0 <? a) = true -> (r1 <=? r2) = true) /\
  ((a <? 0) = true -> (r2 <=? r1) = true).
Proof.
  rewrite solve_binary64.
  destruct (abs a <? DBL_EPSILON) eqn:Ha.
  { destruct (abs b <? DBL_EPSILON); [destruct (abs c <? DBL_EPSILON) |];
      discriminate. }
  cbv zeta. set (d := b * b - 4 * a * c).
  destruct ((d <? 0) && (DBL_EPSILON <? abs d)); [discriminate |].
  destruct (abs d <? DBL_EPSILON); [discriminate |].
  intros E. injection E as <- <-. intros H1 H2.
  destruct (sum_parts _ _ _ H1 H2) as (Hs & Hu & Hv).
  pose proof (@numerators_leb (- b) d Hs Hu Hv) as Hle.
  split; intros Hsign.
  - apply positive_class in Hsign.
    apply quotients_leb; trivial.
    + now apply two_times_class.
    + apply two_times_nonzero; trivial. exact (@class_is_nan _ a Hsign).
  - apply negative_class in Hsign.
    apply quotients_leb_neg; trivial.
    + now apply two_times_class.
    + apply two_times_nonzero; trivial. exact (@class_is_nan _ a Hsign).
Qed.
End RootOrder.

(* ===================================================================== *)
(** ** The properties of the dialogue and of the edge cases, at concrete
       inputs *)

Section Instances.
Open Scope float_scope.


(** Two coefficients, and one. *)
Definition two_numbers : list float := [1; -2].






Lemma main_numbers_witness :
  (Z.to_nat ERR_INPUT_TRIES <= 3)%nat /\
  (length two_numbers <= 3)%nat /\
  main 3 {| stdin := map Converted two_numbers; trace := [] |} =
  Some {| stdin := [];
          trace := [Printed Banner; Printed Intro;
                    Printed (Prompt "A"); ScannedDouble (Converted 1);
                    Printed (Prompt "B"); ScannedDouble (Converted (-2));
                    Printed (Prompt "C"); ScannedDouble EndOfInput;
                    Printed (Result (solve 1 (-2) 0))] |}.
Proof.
  assert (Hlen : (length two_numbers <= 3)%nat) by (simpl; lia).
  split; [exact (le_n 3) |]. split; [exact Hlen |].
  exact (@main_numbers float binary64 3 two_numbers [] (le_n 3) Hlen).
Defined.



Lemma solve_square_band_edge_witness :
  (abs 1 <? DBL_EPSILON) = false /\
  (discriminant 1 0 0x1p-54 =? - DBL_EPSILON) = true /\
  solve 1 0 0x1p-54 = TwoRoots nan nan.
Proof.
  split; [reflexivity |]. split; [reflexivity |].
  exact (proj2 (@solve_square_band_edge 1 0 0x1p-54 0%nat 1%nat eq_refl eq_refl)).
Defined.

Lemma solve_square_aliased_witness :
  fst (solve_square 1 0 (-1) 5%nat 5%nat) = 2%Z /\
  call 1 0 (-1) 5%nat 5%nat (fun _ => 0) = TwoRoots 1 1.
Proof.
  split; [reflexivity |].
  exact (proj2
    (@solve_square_aliased float binary64 1 0 (-1) 5%nat (fun _ => 0) eq_refl)).
Defined.

Lemma roots_order_binary64_witness :
  solve 1 0 (-1) = TwoRoots (-1) 1 /\ (-1 <=? 1) = true.
Proof.
  split; [reflexivity |].
  apply (@roots_order_binary64 1 0 (-1) (-1) 1); reflexivity.
Defined.
End Instances.

Section ExactInstances.
Open Scope R_scope.



End ExactInstances.
